(** * Verification of the audio visualiser component (src/components/Viz.vue)

    Shallow embedding of the parts of [Viz.vue] that the specification talks
    about: the animation scheduler ([startStep], [stopStep], the self
    re-requesting [render]), the playback controller ([setVolume],
    [toggleMute], [seekProgress], [jumpProgress], [setProgress],
    [scrollEvent]), the palette adapter ([getCoverColor]), the particle field
    ([initFragments], the logical step, the recycling loop of [render],
    [drawFragment]) and the projection [convertPolarToCartesian]; then the
    playback flags and media listeners ([togglePlay], [initAudio]), the
    progress display ([startSeeking], [endSeeking], the progress part of
    [render]), the buffered range, [jumpVolume], [parseSecondsToTime], the
    spectrum strokes and the particle triangles.

    JavaScript numbers are idealised: the controller code works over [Q]
    (with an explicit NaN where the code can meet one), the geometry over the
    real numbers [R] (it needs [cos] and [sin]). *)

From Stdlib Require Import ZArith QArith Qround Qminmax List Bool Lia.
From Stdlib Require Import Reals Lra.
From Stdlib Require String Ascii Lqa.
Import ListNotations.

(* ------------------------------------------------------------------------- *)
(** ** Animation scheduler *)

Module Scheduler.

(** The browser's timer queues: [setInterval] and [requestAnimationFrame]
    hand out positive handles from their own counters.  [intervals] lists the
    live interval timers (each one runs the logical step every 20 ms) and
    [frames] the pending animation-frame callbacks; every frame callback in
    this component is [render]. *)
Record sched := mkSched {
  stepEventId : Z;
  flushEventId : Z;
  nextTimer : Z;
  nextFrame : Z;
  intervals : list Z;
  frames : list Z;
}.

Definition setInterval (s : sched) : Z * sched :=
  let h := nextTimer s in
  (h, mkSched (stepEventId s) (flushEventId s) (h + 1) (nextFrame s)
              (intervals s ++ [h]) (frames s)).

Definition clearInterval (h : Z) (s : sched) : sched :=
  mkSched (stepEventId s) (flushEventId s) (nextTimer s) (nextFrame s)
          (filter (fun x => negb (Z.eqb x h)) (intervals s)) (frames s).

Definition requestAnimationFrame (s : sched) : Z * sched :=
  let h := nextFrame s in
  (h, mkSched (stepEventId s) (flushEventId s) (nextTimer s) (h + 1)
              (intervals s) (frames s ++ [h])).

Definition cancelAnimationFrame (h : Z) (s : sched) : sched :=
  mkSched (stepEventId s) (flushEventId s) (nextTimer s) (nextFrame s)
          (intervals s) (filter (fun x => negb (Z.eqb x h)) (frames s)).

Definition set_stepEventId (v : Z) (s : sched) : sched :=
  mkSched v (flushEventId s) (nextTimer s) (nextFrame s) (intervals s) (frames s).

Definition set_flushEventId (v : Z) (s : sched) : sched :=
  mkSched (stepEventId s) v (nextTimer s) (nextFrame s) (intervals s) (frames s).

(** [startStep] (Viz.vue, lines 322-339). *)
Definition startStep (s : sched) : sched :=
  let s1 :=
    if Z.eqb (stepEventId s) 0 then
      let '(h, s') := setInterval s in set_stepEventId h s'
    else s in
  if Z.eqb (flushEventId s1) 0 then
    let '(h, s') := requestAnimationFrame s1 in set_flushEventId h s'
  else s1.

(** [stopStep] (Viz.vue, lines 341-350). *)
Definition stopStep (s : sched) : sched :=
  let s1 :=
    if negb (Z.eqb (stepEventId s) 0) then
      set_stepEventId 0 (clearInterval (stepEventId s) s)
    else s in
  if negb (Z.eqb (flushEventId s1) 0) then
    set_flushEventId 0 (cancelAnimationFrame (flushEventId s1) s1)
  else s1.

(** The scheduling part of [render] (Viz.vue, lines 412-415): at the end of a
    pass, [render] asks for the next frame when [flushEventId] is non-zero,
    without storing the new handle. *)
Definition render_tail (s : sched) : sched :=
  if negb (Z.eqb (flushEventId s) 0) then snd (requestAnimationFrame s) else s.

(** The browser runs the oldest pending animation-frame callback. *)
Definition fire_frame (s : sched) : sched :=
  match frames s with
  | [] => s
  | _ :: rest =>
      render_tail (mkSched (stepEventId s) (flushEventId s) (nextTimer s)
                           (nextFrame s) (intervals s) rest)
  end.

(** One-shot redraw of a resize or of a palette change (lines 180-182 and
    543-545). *)
Definition oneshot_redraw (s : sched) : sched :=
  if Z.eqb (flushEventId s) 0 then snd (requestAnimationFrame s) else s.

(** The end of [init] (line 189): an unconditional first render. *)
Definition init_sched : sched :=
  snd (requestAnimationFrame (mkSched 0 0 1 1 [] [])).

(** The number of redraw chains: every pending frame runs [render], which
    re-requests itself as long as [flushEventId] is non-zero. *)
Definition redraw_chains (s : sched) : nat := length (frames s).

End Scheduler.

(* ------------------------------------------------------------------------- *)
(** ** Playback controller *)

Module Controller.

Open Scope Q_scope.

(** A JavaScript number as the controller code meets it: a finite value or
    NaN (the media element reports [duration = NaN] until its metadata is
    loaded).  Arithmetic propagates NaN and every comparison with NaN is
    false.  A division by zero is taken to NaN: the infinities it gives in
    JavaScript for a non-zero numerator are not distinguished here.  The
    [duration] of an unbounded stream, [+Infinity], is not represented
    either: a [Fin d] duration is a finite one. *)
Inductive num := Fin (q : Q) | NaN.

Definition isNaN (a : num) : bool :=
  match a with NaN => true | Fin _ => false end.

Definition num_sub (a b : num) : num :=
  match a, b with Fin x, Fin y => Fin (x - y) | _, _ => NaN end.

Definition num_mul (a b : num) : num :=
  match a, b with Fin x, Fin y => Fin (x * y) | _, _ => NaN end.

Definition num_div (a b : num) : num :=
  match a, b with
  | Fin x, Fin y => if Qeq_bool y 0 then NaN else Fin (x / y)
  | _, _ => NaN
  end.

(** [a < b]. *)
Definition num_lt (a b : num) : bool :=
  match a, b with Fin x, Fin y => negb (Qle_bool y x) | _, _ => false end.

(** [Math.floor]. *)
Definition num_floor (a : num) : num :=
  match a with Fin x => Fin (inject_Z (Qfloor x)) | NaN => NaN end.

(** Truthiness of a number ([if (e.deltaX)]). *)
Definition truthy (a : num) : bool :=
  match a with Fin x => negb (Qeq_bool x 0) | NaN => false end.

(** A handler either completes or throws.  The media element's [currentTime]
    and [volume] are WebIDL [double] attributes: assigning NaN throws a
    TypeError. *)
Inductive outcome (A : Type) := Ok (a : A) | TypeError.
Arguments Ok {A} a.
Arguments TypeError {A}.

Definition bind {A B} (m : outcome A) (f : A -> outcome B) : outcome B :=
  match m with Ok a => f a | TypeError => TypeError end.

(** The media element together with the component state the controller
    touches: [isMuted] (the ref of line 141) and the height of the volume
    indicator [barVolumeNow] in percent. *)
Record ctrl := mkCtrl {
  currentTime : Q;
  duration : num;
  volume : Q;
  muted : bool;
  isMuted : bool;
  barVolumeHeight : Q;
}.

Definition set_currentTime (t : num) (c : ctrl) : outcome ctrl :=
  match t with
  | Fin x => Ok (mkCtrl x (duration c) (volume c) (muted c) (isMuted c)
                        (barVolumeHeight c))
  | NaN => TypeError
  end.

Definition set_volume (v : num) (c : ctrl) : outcome ctrl :=
  match v with
  | Fin x => Ok (mkCtrl (currentTime c) (duration c) x (muted c) (isMuted c)
                        (barVolumeHeight c))
  | NaN => TypeError
  end.

Definition set_barVolumeHeight (h : Q) (c : ctrl) : ctrl :=
  mkCtrl (currentTime c) (duration c) (volume c) (muted c) (isMuted c) h.

(** State after [initAudio] (lines 216-264), before the metadata is known. *)
Definition initial : ctrl := mkCtrl 0 NaN (8 # 10) false false 80.

(** [toggleMute] (lines 484-487). *)
Definition toggleMute (c : ctrl) : ctrl :=
  let m := negb (muted c) in
  mkCtrl (currentTime c) (duration c) (volume c) m m (barVolumeHeight c).

(** [setVolume] (lines 494-508). *)
Definition setVolume (volumePercent : num) (c : ctrl) : outcome ctrl :=
  if num_lt volumePercent (Fin 0) then
    Ok (if negb (isMuted c) then toggleMute c else c)
  else
    let v := if num_lt (Fin 1) volumePercent then Fin 1 else volumePercent in
    let c1 := if isMuted c then toggleMute c else c in
    bind (set_volume v c1) (fun c2 =>
      match v with
      | Fin x => Ok (set_barVolumeHeight (x * 100) c2)
      | NaN => TypeError
      end).

(** [seekProgress] (lines 462-468): the fraction shown by the bar and the
    time shown by the label, from [e.offsetX] and [barFull.clientWidth]. *)
Definition seekProgress (offsetX clientWidth : Q) (dur : num) : num * num :=
  let seekPercent := num_div (Fin offsetX) (Fin clientWidth) in
  let seekTime :=
    num_floor (num_mul seekPercent (if isNaN dur then Fin 0 else dur)) in
  (seekPercent, seekTime).

(** [setProgress] (lines 475-482). *)
Definition setProgress (time : num) (c : ctrl) : outcome ctrl :=
  let time :=
    if num_lt time (Fin 0) then Fin 0
    else if num_lt (duration c) time then duration c
    else time in
  set_currentTime time c.

(** [jumpProgress] (lines 470-473). *)
Definition jumpProgress (offsetX clientWidth : Q) (c : ctrl) : outcome ctrl :=
  let seekPercent := num_div (Fin offsetX) (Fin clientWidth) in
  setProgress
    (num_mul seekPercent (if isNaN (duration c) then Fin 0 else duration c)) c.

(** [scrollEvent] (lines 510-517), with the canvas size of [initCanvasSize]. *)
Definition scrollEvent (deltaX deltaY : num) (width height : Q) (c : ctrl)
    : outcome ctrl :=
  bind
    (if truthy deltaX then
       setProgress
         (num_sub (Fin (currentTime c))
                  (num_mul (num_div deltaX (Fin width)) (duration c))) c
     else Ok c)
    (fun c1 =>
       if truthy deltaY then
         setVolume (num_sub (Fin (volume c1)) (num_div deltaY (Fin height))) c1
       else Ok c1).

(** The seek preview as the specification words it: the fraction clamped to
    [[0,1]] and the time [fraction * duration], an unknown duration read as
    0.  Compared with [seekProgress] below. *)
Definition seekPreview_spec (pointerX trackWidth : Q) (dur : num) : num * num :=
  let fraction := Qmax 0 (Qmin 1 (pointerX / trackWidth)) in
  (Fin fraction, Fin (fraction * match dur with Fin d => d | NaN => 0 end)).

Close Scope Q_scope.

End Controller.

(* ------------------------------------------------------------------------- *)
(** ** Palette adapter *)

Module Palette.

Open Scope Q_scope.

Definition rgb : Type := (Z * Z * Z)%type.

(** A CSS colour as [getCoverColor] writes it: [rgb(r,g,b)] or
    [rgba(r,g,b,a)]. *)
Inductive css := Rgb (c : rgb) | Rgba (c : rgb) (alpha : Q).

Record colorTriple := mkColors { bg : css; freq : css; fragments : css }.

(** The default colours of line 143 are CSS strings ('#333', '#fff',
    '#fff6'); only the adapted ones are modelled. *)

Section Adapter.

(** [rgbToHsl] and [hslToRgb] of [src/utils/color]: the properties below hold
    for any pair of conversion functions. *)
Variable rgbToHsl : rgb -> Q * Q * Q.
Variable hslToRgb : Q -> Q -> Q -> rgb.

(** [changeColor] (lines 548-551). *)
Definition changeColor (rgbColor : rgb) (isDarken : bool) : rgb :=
  let '(h, s, _) := rgbToHsl rgbColor in
  hslToRgb h s (if isDarken then 3 # 10 else 85 # 100).

(** The palette returned by [ColorThief.getPalette]; an index past its end
    reads [undefined], written [None]. *)
Definition palette := list (option rgb).

Definition at0 (p : palette) : option rgb :=
  match p with [] => None | c :: _ => c end.

(** The loop [while (palette.length < 3) palette.push(palette[0])]
    (lines 525-527); each turn adds one entry, so three turns bound it. *)
Fixpoint pad (fuel : nat) (p : palette) : palette :=
  match fuel with
  | O => p
  | S n => if Nat.ltb (length p) 3 then pad n (p ++ [at0 p]) else p
  end.

Definition ensure3 (p : palette) : palette := pad 3 p.

(** [changeColor(palette[i], d)]: spreading [undefined] throws, written
    [None]. *)
Definition changeAt (p : palette) (i : nat) (isDarken : bool) : option rgb :=
  match nth_error p i with
  | Some (Some c) => Some (changeColor c isDarken)
  | _ => None
  end.

(** The colour triple built by [getCoverColor] (lines 519-546). *)
Definition getCoverColor (extracted : palette) : option colorTriple :=
  let p := ensure3 extracted in
  match changeAt p 0 true, changeAt p 1 false, changeAt p 2 false with
  | Some b, Some f, Some g => Some (mkColors (Rgb b) (Rgb f) (Rgba g (4 # 10)))
  | _, _, _ => None
  end.

End Adapter.

Close Scope Q_scope.

End Palette.

(* ------------------------------------------------------------------------- *)
(** ** Geometry: projection, spectrum and particle field *)

Module Geometry.

Open Scope R_scope.

Definition FREQ_BIN_COUNT : nat := 256.
Definition FRAGMENTS_count : nat := 256.
Definition FRAGMENTS_minRadius : R := 1 / 150.
Definition FRAGMENTS_maxRadius : R := 1 / 60.
Definition FRAGMENTS_stepRadius : R := 1 / 2000.
Definition FRAGMENTS_stepAngle : R := 3 / 2.
Definition ANGLE_STEP : R := 3 / 10.
Definition RADIUS_LIMIT_min : R := 1 / 5.
Definition RADIUS_LIMIT_max : R := 3 / 8.
Definition ASPECT_RATIO : R := 16 / 9.

Record point := mkPoint { x : R; y : R }.

(** [convertPolarToCartesian] (lines 418-425). *)
Definition convertPolarToCartesian (radius angleInDegrees offsetX offsetY : R)
    : point :=
  let angleInRadians := (angleInDegrees - 90) * (PI / 180) in
  mkPoint (radius * cos angleInRadians + offsetX)
          (radius * sin angleInRadians + offsetY).

Record canvasSize := mkCanvas { width : R; height : R }.

Record freqRate := mkFreqRate { rate_radius : R; rate_angleInDegrees : R }.

(** The geometry part of [initCanvasSize] (lines 192-214). *)
Definition initCanvasSize (w : R) : canvasSize := mkCanvas w (w / ASPECT_RATIO).

Definition freqMultiplyRate (cv : canvasSize) : freqRate :=
  mkFreqRate (height cv * (RADIUS_LIMIT_max - RADIUS_LIMIT_min) / 256)
             (360 / INR FREQ_BIN_COUNT).

(** The default centre of [convertPolarToCartesian]. *)
Definition project (cv : canvasSize) (radius angle : R) : point :=
  convertPolarToCartesian radius angle (width cv / 2) (height cv / 2).

(** One spectrum stroke of [render] (lines 364-383): from the start point to
    the end point, for bin [i]. *)
Definition spectrumSegment (cv : canvasSize) (dataArray : list nat)
    (volume angleOffset : R) (i : nat) : point * point :=
  let rate := freqMultiplyRate cv in
  let angleInDegree := rate_angleInDegrees rate * INR i * 2 + angleOffset in
  let startPoint := project cv (height cv * RADIUS_LIMIT_min) angleInDegree in
  let endPoint :=
    project cv (INR (nth i dataArray 0%nat) * rate_radius rate
                  * (volume * 0.5 + 0.5) + height cv * RADIUS_LIMIT_min)
               angleInDegree in
  (startPoint, endPoint).

Definition spectrum (cv : canvasSize) (dataArray : list nat)
    (volume angleOffset : R) : list (point * point) :=
  map (spectrumSegment cv dataArray volume angleOffset)
      (seq 0 (Nat.div FREQ_BIN_COUNT 2)).

Close Scope R_scope.

End Geometry.

Module Particles.

Import Geometry.
Open Scope R_scope.

(** [FragmentProps] (lines 153-160). *)
Record fragment := mkFragment {
  selfRadius : R;
  selfAngle : R;
  positionRadius : R;
  positionAngle : R;
  stepRadius : R;
  stepAngle : R;
}.

Record fragmentSize := mkFragmentSize {
  minSelfRadius : R;
  maxSelfRadius : R;
  minPositionRadius : R;
  maxPositionRadius : R;
  fs_stepRadius : R;
}.

(** [initFragmentsSize] (lines 286-295). *)
Definition initFragmentsSize (cv : canvasSize) : fragmentSize :=
  let minPositionRadius := RADIUS_LIMIT_min * height cv in
  mkFragmentSize (FRAGMENTS_minRadius * height cv)
                 (FRAGMENTS_maxRadius * height cv)
                 minPositionRadius
                 (width cv / 2 - minPositionRadius)
                 (FRAGMENTS_stepRadius * width cv).

(** [Math.random()] is a stream of draws in [[0,1)], read from position [k]
    on. *)
Definition random := nat -> R.

Definition random_ok (rnd : random) : Prop := forall k, 0 <= rnd k < 1.

(** The particle literal of [initFragments] (lines 300-307), from the six
    draws in the order the code makes them. *)
Definition spawnInit (sz : fragmentSize) (r1 r2 r3 r4 r5 r6 : R) : fragment :=
  mkFragment
    (r1 * (maxSelfRadius sz - minSelfRadius sz) + minSelfRadius sz)
    (r2 * 360)
    (r3 * (maxPositionRadius sz - minPositionRadius sz) + minPositionRadius sz)
    (r4 * 360)
    ((r5 * 0.5 + 0.5) * fs_stepRadius sz)
    ((r6 * 2 - 1) * FRAGMENTS_stepAngle).

(** The replacement particle of [render] (lines 388-396), from its five
    draws. *)
Definition spawnRecycle (sz : fragmentSize) (r1 r2 r3 r4 r5 : R) : fragment :=
  let selfRadius := r1 * (maxSelfRadius sz - minSelfRadius sz) + minSelfRadius sz in
  mkFragment selfRadius (r2 * 360) (minPositionRadius sz - selfRadius)
             (r3 * 360) ((r4 * 0.5 + 0.5) * fs_stepRadius sz)
             ((r5 * 2 - 1) * FRAGMENTS_stepAngle).

(** [initFragments] (lines 297-310): the array and the next position of the
    random stream. *)
Fixpoint initFragmentsFrom (sz : fragmentSize) (rnd : random) (k n : nat)
    : list fragment :=
  match n with
  | O => []
  | S n' =>
      spawnInit sz (rnd k) (rnd (k + 1)%nat) (rnd (k + 2)%nat) (rnd (k + 3)%nat)
                (rnd (k + 4)%nat) (rnd (k + 5)%nat)
      :: initFragmentsFrom sz rnd (k + 6) n'
  end.

Definition initFragments (cv : canvasSize) (rnd : random) : list fragment :=
  initFragmentsFrom (initFragmentsSize cv) rnd 0 FRAGMENTS_count.

(** The bounding-box test of [drawFragment] (lines 555-563): [true] when the
    particle is drawn, [false] when it lies outside the canvas. *)
Definition drawFragment (cv : canvasSize) (p : fragment) : bool :=
  let center := project cv (positionRadius p) (positionAngle p) in
  if Rlt_dec (x center + selfRadius p) 0 then false
  else if Rlt_dec (width cv) (x center - selfRadius p) then false
  else if Rlt_dec (y center + selfRadius p) 0 then false
  else if Rlt_dec (height cv) (y center - selfRadius p) then false
  else true.

(** The fragment loop of [render] (lines 386-399) from slot [i] on: the
    updated array, the list of particles drawn with their slot, and the next
    position of the random stream. *)
Fixpoint drawFragments (sz : fragmentSize) (cv : canvasSize) (rnd : random)
    (k i : nat) (arr : list fragment)
    : list fragment * list (nat * fragment) * nat :=
  match arr with
  | [] => ([], [], k)
  | p :: rest =>
      if drawFragment cv p then
        let '(rest', log, k') := drawFragments sz cv rnd k (S i) rest in
        (p :: rest', (i, p) :: log, k')
      else
        let q := spawnRecycle sz (rnd k) (rnd (k + 1)%nat) (rnd (k + 2)%nat)
                              (rnd (k + 3)%nat) (rnd (k + 4)%nat) in
        let '(rest', log, k') := drawFragments sz cv rnd (k + 5) (S i) rest in
        (q :: rest', (if drawFragment cv q then (i, q) :: log else log), k')
  end.

(** The bounding box [[x-r, x+r] x [y-r, y+r]] of a particle lies wholly
    outside [[0,width] x [0,height]]. *)
Definition outside (cv : canvasSize) (p : fragment) : Prop :=
  let c := project cv (positionRadius p) (positionAngle p) in
  x c + selfRadius p < 0 \/ x c - selfRadius p > width cv \/
  y c + selfRadius p < 0 \/ y c - selfRadius p > height cv.

(** The interval callback of [startStep] (lines 324-333). *)
Definition stepFragment (p : fragment) : fragment :=
  mkFragment (selfRadius p) (selfAngle p + stepAngle p)
             (positionRadius p + stepRadius p) (positionAngle p)
             (stepRadius p) (stepAngle p).

Definition tick (st : R * list fragment) : R * list fragment :=
  (fst st + ANGLE_STEP, map stepFragment (snd st)).

(** A particle produced by [initFragments] or by recycling, with the sizing
    of a canvas of non-negative width (a [clientWidth]). *)
Definition spawned (p : fragment) : Prop :=
  exists w, 0 <= w /\
  let sz := initFragmentsSize (initCanvasSize w) in
  (exists r1 r2 r3 r4 r5 r6,
     0 <= r1 < 1 /\ 0 <= r2 < 1 /\ 0 <= r3 < 1 /\ 0 <= r4 < 1 /\
     0 <= r5 < 1 /\ 0 <= r6 < 1 /\ p = spawnInit sz r1 r2 r3 r4 r5 r6) \/
  (exists r1 r2 r3 r4 r5,
     0 <= r1 < 1 /\ 0 <= r2 < 1 /\ 0 <= r3 < 1 /\ 0 <= r4 < 1 /\
     0 <= r5 < 1 /\ p = spawnRecycle sz r1 r2 r3 r4 r5).

Close Scope R_scope.

End Particles.

(* ------------------------------------------------------------------------- *)
(** ** Playback state and media events *)

Module Player.

Import Scheduler.

(** The component's playback flags ([isPlaying], [isLoading],
    [isContextResumed]), the media element's [paused] attribute and the
    animation handles. *)
Record player := mkPlayer {
  isPlaying : bool;
  isLoading : bool;
  paused : bool;
  isContextResumed : bool;
  sch : sched;
}.

(** The requests [togglePlay] makes to the audio context and the media
    element. *)
Inductive effect := ContextResume | AudioPlay | AudioPause.

(** [togglePlay] (lines 433-446).  [audio.play()] and [audio.pause()] set the
    media element's [paused] attribute at once; the [play] and [pause] events
    follow later. *)
Definition togglePlay (p : player) : player * list effect :=
  if negb (isLoading p) && paused p then
    let '(resumed, e1) :=
      if negb (isContextResumed p) then (true, [ContextResume])
      else (isContextResumed p, []) in
    (mkPlayer (isPlaying p) (isLoading p) false resumed (sch p), e1 ++ [AudioPlay])
  else
    (mkPlayer (isPlaying p) (isLoading p) true (isContextResumed p) (sch p),
     [AudioPause]).

Inductive mediaEvent := EvPause | EvPlay | EvWaiting | EvPlaying | EvCanplay.

(** The listeners registered by [initAudio] (lines 224-260). *)
Definition onMediaEvent (e : mediaEvent) (p : player) : player :=
  match e with
  | EvPause =>
      mkPlayer false (isLoading p) true (isContextResumed p) (stopStep (sch p))
  | EvPlay =>
      mkPlayer true (isLoading p) false (isContextResumed p) (startStep (sch p))
  | EvWaiting => mkPlayer false true (paused p) (isContextResumed p) (sch p)
  | EvPlaying => mkPlayer true false (paused p) (isContextResumed p) (sch p)
  | EvCanplay => mkPlayer (isPlaying p) false (paused p) (isContextResumed p) (sch p)
  end.

(** What can happen to the component: a click on the play button, a media
    event, an animation frame, or a one-shot redraw (resize or palette). *)
Inductive input := Toggle | Media (e : mediaEvent) | Frame | OneShot.

Definition step (i : input) (p : player) : player * list effect :=
  match i with
  | Toggle => togglePlay p
  | Media e => (onMediaEvent e p, [])
  | Frame => (mkPlayer (isPlaying p) (isLoading p) (paused p)
                       (isContextResumed p) (fire_frame (sch p)), [])
  | OneShot => (mkPlayer (isPlaying p) (isLoading p) (paused p)
                         (isContextResumed p) (oneshot_redraw (sch p)), [])
  end.

Fixpoint run (p : player) (l : list input) : player * list effect :=
  match l with
  | [] => (p, [])
  | i :: rest =>
      let '(p1, e1) := step i p in
      let '(p2, e2) := run p1 rest in
      (p2, e1 ++ e2)
  end.

(** After [init]: loading, paused, context not resumed, first render
    pending. *)
Definition initPlayer : player := mkPlayer false true true false init_sched.

End Player.

(* ------------------------------------------------------------------------- *)
(** ** Progress display and seeking *)

Module SeekUI.

Import Controller.
Open Scope Q_scope.

(** The progress widgets: [isSeeking], the seconds shown by [timeNow]
    (through [parseSecondsToTime]), and the widths/positions in percent of
    [barPlayed] and [seeker].  The fields record the values the code
    assigns.  A NaN percentage is written as the style ['NaN%'], which the
    DOM ignores, keeping the previous width: the fields are what is shown
    only while the assigned percentages are finite. *)
Record ui := mkUI {
  isSeeking : bool;
  timeNow : num;
  barPlayed : num;
  seekerLeft : num;
}.

(** [audio.currentTime / audio.duration * 100]. *)
Definition playedPercent (ct : Q) (dur : num) : num :=
  num_mul (num_div (Fin ct) dur) (Fin 100).


(** [endSeeking] (lines 452-460). *)
Definition endSeeking (ct : Q) (dur : num) (u : ui) : ui :=
  let pp := playedPercent ct dur in mkUI false (Fin ct) pp pp.


(** The progress part of [render] (lines 401-408). *)
Definition renderProgress (ct : Q) (dur : num) (u : ui) : ui :=
  let pp := playedPercent ct dur in
  if isSeeking u then mkUI true (timeNow u) pp (seekerLeft u)
  else mkUI false (Fin ct) pp pp.

Close Scope Q_scope.

End SeekUI.

(* ------------------------------------------------------------------------- *)
(** ** Buffered range, volume clicks *)

Module MediaMore.

Import Controller.
Open Scope Q_scope.

(** The loop of the [progress] listener (lines 241-246) over
    [audio.buffered.end(i)]. *)
Definition latestBuffered (ends : list Q) : Q :=
  fold_left (fun acc e => if negb (Qle_bool e acc) then e else acc) ends 0.

(** [jumpVolume] (lines 489-492), from [e.offsetY] and
    [barVolumeFull.clientHeight]. *)
Definition jumpVolume (offsetY clientHeight : Q) (c : ctrl) : outcome ctrl :=
  setVolume (num_div (Fin (clientHeight - offsetY)) (Fin clientHeight)) c.

(** The user actions that reach the controller. *)
Inductive action :=
  | AToggleMute
  | ASetVolume (v : num)
  | AJumpVolume (offsetY clientHeight : Q)
  | AJumpProgress (offsetX clientWidth : Q)
  | AScroll (deltaX deltaY : num) (width height : Q).

Definition act (a : action) (c : ctrl) : outcome ctrl :=
  match a with
  | AToggleMute => Ok (toggleMute c)
  | ASetVolume v => setVolume v c
  | AJumpVolume y h => jumpVolume y h c
  | AJumpProgress x w => jumpProgress x w c
  | AScroll dx dy w h => scrollEvent dx dy w h c
  end.

Fixpoint actAll (l : list action) (c : ctrl) : outcome ctrl :=
  match l with
  | [] => Ok c
  | a :: rest => bind (act a c) (actAll rest)
  end.

Close Scope Q_scope.

End MediaMore.

(* ------------------------------------------------------------------------- *)
(** ** Time labels *)

Module TimeFormat.

Import Controller String Ascii.
Open Scope Q_scope.
Open Scope string_scope.

Definition digit (d : Z) : Ascii.ascii := Ascii.ascii_of_nat (48 + Z.to_nat d).

(** Decimal digits of a non-negative integer.  JavaScript prints integers
    below 10^21 in plain decimal, at most 21 digits: the fuel covers them. *)
Fixpoint dec_aux (fuel : nat) (n : Z) (acc : string) : string :=
  match fuel with
  | O => acc
  | S f =>
      let acc' := String (digit (n mod 10)) acc in
      if (n <? 10)%Z then acc' else dec_aux f (n / 10) acc'
  end.

(** [`${z}`] for an integer [z]. *)
Definition string_of_Z (z : Z) : string :=
  if (z <? 0)%Z then String "-"%char (dec_aux 22 (- z) EmptyString)
  else dec_aux 22 z EmptyString.

(** The integer quotient JavaScript's [%] uses: towards zero. *)
Definition Qtrunc (x : Q) : Z := if Qle_bool 0 x then Qfloor x else Qceiling x.

(** [a % m] on numbers: the remainder has the sign of [a]. *)
Definition jsmod (a : num) (m : Q) : num :=
  match a with
  | Fin x => Fin (x - m * inject_Z (Qtrunc (x / m)))
  | NaN => NaN
  end.

Definition floorZ (a : num) : option Z :=
  match a with Fin x => Some (Qfloor x) | NaN => None end.

(** [`${v < 10 ? '0' : ''}${v}`] for [v] an integer or NaN. *)
Definition pad2 (v : option Z) : string :=
  match v with
  | Some z => append (if (z <? 10)%Z then "0" else "") (string_of_Z z)
  | None => "NaN"
  end.

(** [parseSecondsToTime] (lines 427-431). *)
Definition parseSecondsToTime (seconds : num) : string :=
  let sec := floorZ (jsmod seconds 60) in
  let min := floorZ (num_div seconds (Fin 60)) in
  append (pad2 min) (append ":" (pad2 sec)).

(** Reading a label [mm:ss] back as a number of seconds. *)
Definition digit_val (a : Ascii.ascii) : option Z :=
  let n := Ascii.nat_of_ascii a in
  if (48 <=? n)%nat && (n <=? 57)%nat then Some (Z.of_nat n - 48)%Z else None.

Definition read_mmss (s : string) : option Z :=
  match s with
  | String a (String b (String c (String d (String e EmptyString)))) =>
      match digit_val a, digit_val b, digit_val d, digit_val e with
      | Some m1, Some m2, Some s1, Some s2 =>
          if Ascii.eqb c ":"%char then Some ((m1 * 10 + m2) * 60 + s1 * 10 + s2)%Z
          else None
      | _, _, _, _ => None
      end
  | _ => None
  end.

Close Scope string_scope.
Close Scope Q_scope.

End TimeFormat.

(* ------------------------------------------------------------------------- *)
(** ** Particle shape *)

Module Shapes.

Import Geometry Particles.
Open Scope R_scope.

(** The three vertices [drawFragment] fills (lines 567-571). *)
Definition vertexes (cv : canvasSize) (p : fragment) : point * point * point :=
  let center := project cv (positionRadius p) (positionAngle p) in
  (convertPolarToCartesian (selfRadius p) (selfAngle p) (x center) (y center),
   convertPolarToCartesian (selfRadius p) (120 + selfAngle p) (x center) (y center),
   convertPolarToCartesian (selfRadius p) (240 + selfAngle p) (x center) (y center)).

Definition dist2 (a b : point) : R := (x a - x b) ^ 2 + (y a - y b) ^ 2.

Close Scope R_scope.

End Shapes.

(* ========================================================================= *)
(** * Properties *)

(* ------------------------------------------------------------------------- *)
(** ** Scheduler *)

Module SchedulerFacts.

Import Scheduler.

Lemma fire_frame_flush (s : sched) : flushEventId (fire_frame s) = flushEventId s.
Proof.
  unfold fire_frame, render_tail.
  destruct (frames s); [reflexivity|].
  simpl. destruct (negb (flushEventId s =? 0)%Z); reflexivity.
Qed.

Lemma fire_frame_chains (s : sched) :
  flushEventId s <> 0%Z -> redraw_chains (fire_frame s) = redraw_chains s.
Proof.
  intros H. unfold redraw_chains, fire_frame, render_tail.
  destruct s as [st fl nt nf iv [|f rest]]; simpl in *; [reflexivity|].
  apply Z.eqb_neq in H. rewrite H. simpl.
  rewrite length_app. simpl. lia.
Qed.

(** While [flushEventId] is non-zero, each frame callback replaces itself:
    the number of redraw chains never changes. *)
Lemma iter_fire_chains (s : sched) (n : nat) :
  flushEventId s <> 0%Z ->
  redraw_chains (Nat.iter n fire_frame s) = redraw_chains s /\
  flushEventId (Nat.iter n fire_frame s) = flushEventId s.
Proof.
  intros H. induction n as [|n [IH1 IH2]]; [split; reflexivity|].
  simpl. rewrite fire_frame_flush, IH2. split; [|reflexivity].
  rewrite fire_frame_chains; [exact IH1|]. rewrite IH2. exact H.
Qed.

(** The handles of a browser are positive: with positive counters,
    [startStep] is idempotent. *)
Lemma startStep_noop (s : sched) :
  stepEventId s <> 0%Z -> flushEventId s <> 0%Z -> startStep s = s.
Proof.
  intros H1 H2. unfold startStep.
  apply Z.eqb_neq in H1, H2. rewrite H1, H2. reflexivity.
Qed.

Lemma startStep_handles (s : sched) :
  (0 < nextTimer s)%Z -> (0 < nextFrame s)%Z ->
  stepEventId (startStep s) <> 0%Z /\ flushEventId (startStep s) <> 0%Z.
Proof.
  intros Ht Hf. unfold startStep.
  remember (if (stepEventId s =? 0)%Z
            then let '(h, s') := setInterval s in set_stepEventId h s'
            else s) as s1 eqn:Hs1.
  assert (H1 : stepEventId s1 <> 0%Z /\ nextFrame s1 = nextFrame s).
  { subst s1. destruct (stepEventId s =? 0)%Z eqn:E; simpl.
    - split; [lia | reflexivity].
    - split; [apply Z.eqb_neq; exact E | reflexivity]. }
  destruct H1 as [H1 H2].
  destruct (flushEventId s1 =? 0)%Z eqn:E; simpl.
  - split; [exact H1 | lia].
  - split; [exact H1 | apply Z.eqb_neq; exact E].
Qed.

Lemma startStep_idempotent (s : sched) :
  (0 < nextTimer s)%Z -> (0 < nextFrame s)%Z ->
  startStep (startStep s) = startStep s.
Proof.
  intros Ht Hf. destruct (startStep_handles s Ht Hf) as [H1 H2].
  apply startStep_noop; assumption.
Qed.

(** The run of the player in a background tab, where animation frames are
    held back: the first render of [init] runs, the media element fires
    [play] ([startStep]), one frame runs and re-requests the next one, then
    [pause] ([stopStep]) and [play] again, the latter delivered twice
    ([startStep] twice in succession). *)
Definition background_resume : sched :=
  startStep (startStep (stopStep (fire_frame (startStep (fire_frame init_sched))))).

(** C1 (code_bug): [stopStep] cancels the handle stored in [flushEventId],
    which is the frame already run; the frame that [render] re-requested
    without storing its handle stays pending with [flushEventId = 0].  After
    [startStep] twice there is one interval timer but two redraw chains, and
    they never merge. *)
Theorem startStep_twice_leaves_two_redraw_chains :
  let paused := stopStep (fire_frame (startStep (fire_frame init_sched))) in
  flushEventId paused = 0%Z /\ stepEventId paused = 0%Z /\
  redraw_chains paused = 1%nat /\
  let s := background_resume in
  intervals s = [2%Z] /\ stepEventId s = 2%Z /\ flushEventId s = 4%Z /\
  redraw_chains s = 2%nat /\
  (forall n, redraw_chains (Nat.iter n fire_frame s) = 2%nat).
Proof.
  cbn zeta.
  split; [reflexivity|]. split; [reflexivity|]. split; [reflexivity|].
  split; [reflexivity|]. split; [reflexivity|]. split; [reflexivity|].
  split; [reflexivity|].
  intros n. destruct (iter_fire_chains background_resume n) as [H _].
  - discriminate.
  - rewrite H. reflexivity.
Qed.

End SchedulerFacts.

(* ------------------------------------------------------------------------- *)
(** ** Playback controller *)

Module ControllerFacts.

Import Controller.
Open Scope Q_scope.

Lemma num_lt_fin (a b : Q) : num_lt (Fin a) (Fin b) = true <-> a < b.
Proof.
  simpl. rewrite negb_true_iff. split.
  - intros H. apply Qnot_le_lt. intros H'. apply Qle_bool_iff in H'.
    congruence.
  - intros H. destruct (Qle_bool b a) eqn:E; [|reflexivity].
    apply Qle_bool_iff in E. exfalso. apply (Qlt_not_le a b); assumption.
Qed.

Lemma num_lt_fin_false (a b : Q) : num_lt (Fin a) (Fin b) = false <-> b <= a.
Proof.
  split.
  - intros H. apply Qnot_lt_le. intros H'. apply num_lt_fin in H'. congruence.
  - intros H. destruct (num_lt (Fin a) (Fin b)) eqn:E; [|reflexivity].
    apply num_lt_fin in E. exfalso. apply (Qlt_not_le a b); assumption.
Qed.

(** [toggleMute] keeps [isMuted] and the media element's [muted] in
    lock-step. *)
Lemma toggleMute_lockstep (c : ctrl) :
  muted (toggleMute c) = isMuted (toggleMute c).
Proof. reflexivity. Qed.

(** C2: [setVolume] never throws on a finite argument.  A negative argument
    is a mute gesture: the controller ends muted and the volume is untouched.
    A non-negative argument un-mutes and sets the volume, saturated at 1. *)
Theorem setVolume_clamps_and_mutes (c : ctrl) (v : Q) :
  muted c = isMuted c ->
  exists c', setVolume (Fin v) c = Ok c' /\ muted c' = isMuted c' /\
    (v < 0 -> isMuted c' = true /\ volume c' = volume c) /\
    (1 < v -> isMuted c' = false /\ volume c' = 1 /\ barVolumeHeight c' = 100) /\
    (0 <= v <= 1 -> isMuted c' = false /\ volume c' = v /\
                    barVolumeHeight c' = v * 100).
Proof.
  intros Hlock. unfold setVolume.
  destruct (num_lt (Fin v) (Fin 0)) eqn:Eneg.
  - apply num_lt_fin in Eneg.
    assert (N1 : ~ 1 < v).
    { intros H. apply (Qlt_not_le v 0 Eneg). apply Qle_trans with 1;
        [discriminate | apply Qlt_le_weak; exact H]. }
    assert (N2 : ~ (0 <= v <= 1)) by (intros [H _]; apply (Qlt_not_le v 0 Eneg H)).
    exists (if negb (isMuted c) then toggleMute c else c). split; [reflexivity|].
    destruct (isMuted c) eqn:Em; simpl;
      repeat split; intros; try (exfalso; tauto); rewrite ?Hlock; try reflexivity; try congruence.
  - apply num_lt_fin_false in Eneg.
    assert (Hc1 : muted (if isMuted c then toggleMute c else c) = false /\
                  isMuted (if isMuted c then toggleMute c else c) = false /\
                  volume (if isMuted c then toggleMute c else c) = volume c).
    { destruct (isMuted c) eqn:Em; simpl; rewrite ?Hlock; auto. }
    destruct Hc1 as [Hm1 [Hi1 _]].
    destruct (num_lt (Fin 1) (Fin v)) eqn:Ebig.
    + apply num_lt_fin in Ebig. simpl.
      eexists. split; [reflexivity|]. simpl. rewrite Hm1, Hi1.
      split; [reflexivity|]. split.
      * intros H. exfalso. apply (Qlt_not_le v 0); assumption.
      * split; [intros _; auto|].
        intros [_ H]. exfalso. apply (Qlt_not_le 1 v); assumption.
    + apply num_lt_fin_false in Ebig. simpl.
      eexists. split; [reflexivity|]. simpl. rewrite Hm1, Hi1.
      split; [reflexivity|]. split.
      * intros H. exfalso. apply (Qlt_not_le v 0); assumption.
      * split; [|intros _; auto].
        intros H. exfalso. apply (Qlt_not_le 1 v); assumption.
Qed.

Lemma setVolume_clamps_and_mutes_witness :
  muted initial = isMuted initial /\
  exists c', setVolume (Fin (-1 # 2)) initial = Ok c' /\ muted c' = isMuted c' /\
    ((-1 # 2) < 0 -> isMuted c' = true /\ volume c' = volume initial) /\
    (1 < (-1 # 2) -> isMuted c' = false /\ volume c' = 1 /\ barVolumeHeight c' = 100) /\
    (0 <= (-1 # 2) <= 1 -> isMuted c' = false /\ volume c' = (-1 # 2) /\
                         barVolumeHeight c' = (-1 # 2) * 100).
Proof.
  split; [reflexivity|].
  apply (setVolume_clamps_and_mutes initial (-1 # 2)). reflexivity.
Defined.

(** C10: 0 is not a mute gesture.  [setVolume(0)] un-mutes, sets the volume
    to 0 and empties the volume indicator; from the initial state, a mute
    gesture and [setVolume(0)] reach two different states. *)
Theorem setVolume_zero_is_not_mute (c : ctrl) :
  muted c = isMuted c ->
  (exists c', setVolume (Fin 0) c = Ok c' /\ volume c' = 0 /\
     muted c' = false /\ isMuted c' = false /\ barVolumeHeight c' = 0) /\
  (exists cm cz, setVolume (Fin (-1)) initial = Ok cm /\
     setVolume (Fin 0) initial = Ok cz /\
     isMuted cm = true /\ volume cm = (8 # 10) /\
     isMuted cz = false /\ volume cz = 0 /\ cm <> cz).
Proof.
  intros Hlock. split.
  - unfold setVolume. cbn [num_lt negb Qle_bool].
    destruct (isMuted c) eqn:Em; simpl; rewrite ?Hlock;
      eexists; (split; [reflexivity|]); simpl; rewrite ?Hlock;
      repeat split; assumption.
  - do 2 eexists. split; [reflexivity|]. split; [reflexivity|].
    repeat split. discriminate.
Qed.

Lemma setVolume_zero_is_not_mute_witness :
  muted initial = isMuted initial /\
  (exists c', setVolume (Fin 0) initial = Ok c' /\ volume c' = 0 /\
     muted c' = false /\ isMuted c' = false /\ barVolumeHeight c' = 0) /\
  (exists cm cz, setVolume (Fin (-1)) initial = Ok cm /\
     setVolume (Fin 0) initial = Ok cz /\
     isMuted cm = true /\ volume cm = (8 # 10) /\
     isMuted cz = false /\ volume cz = 0 /\ cm <> cz).
Proof.
  split; [reflexivity|]. apply (setVolume_zero_is_not_mute initial).
  reflexivity.
Defined.

(** C6 (code_bug): before the metadata is loaded ([duration] is NaN), a
    horizontal wheel step gives [setProgress] the value
    [currentTime - deltaX / width * NaN], which is NaN: neither clamp branch
    applies and the assignment to [currentTime] throws.  The click path
    [jumpProgress] reads the unknown duration as 0 and sets 0. *)
Theorem scrollEvent_unresolved_duration_throws :
  duration initial = NaN /\
  scrollEvent (Fin 10) (Fin 0) 1280 720 initial = TypeError /\
  exists c', jumpProgress 50 200 initial = Ok c' /\ currentTime c' == 0.
Proof.
  split; [reflexivity|]. split; [reflexivity|].
  eexists. split; [reflexivity|]. reflexivity.
Qed.

Close Scope Q_scope.

End ControllerFacts.

(* ------------------------------------------------------------------------- *)
(** ** Palette adapter *)

Module PaletteFacts.

Import Palette.

(** C8: a one-colour palette is padded to three copies of that colour, and the
    three roles are that colour darkened (background) and lightened
    (spectrum, and particles at opacity 0.4); no index reads [undefined]. *)
Theorem getCoverColor_single_color
    (rgbToHsl : rgb -> Q * Q * Q) (hslToRgb : Q -> Q -> Q -> rgb) (c : rgb) :
  ensure3 [Some c] = [Some c; Some c; Some c] /\
  getCoverColor rgbToHsl hslToRgb [Some c] =
    Some (mkColors (Rgb (changeColor rgbToHsl hslToRgb c true))
                   (Rgb (changeColor rgbToHsl hslToRgb c false))
                   (Rgba (changeColor rgbToHsl hslToRgb c false) (4 # 10))).
Proof. split; reflexivity. Qed.

End PaletteFacts.

(* ------------------------------------------------------------------------- *)
(** ** Geometry *)

Module GeometryFacts.

Import Geometry.
Open Scope R_scope.

Lemma angle_shift (theta : R) :
  (theta + 360 - 90) * (PI / 180) = (theta - 90) * (PI / 180) + 2 * INR 1 * PI.
Proof. simpl. field. Qed.

Lemma INR_FREQ_BIN_COUNT : INR FREQ_BIN_COUNT = 256.
Proof. unfold FREQ_BIN_COUNT. rewrite INR_IZR_INZ. reflexivity. Qed.

(** C9: the projection is the formula of the specification and does not
    change when the angle turns by 360 degrees. *)
Theorem convertPolarToCartesian_periodic (r theta cx cy : R) :
  convertPolarToCartesian r (theta + 360) cx cy =
    convertPolarToCartesian r theta cx cy /\
  x (convertPolarToCartesian r theta cx cy) =
    cx + r * cos ((theta - 90) * PI / 180) /\
  y (convertPolarToCartesian r theta cx cy) =
    cy + r * sin ((theta - 90) * PI / 180).
Proof.
  unfold convertPolarToCartesian. simpl. split; [|split].
  - rewrite angle_shift, cos_period, sin_period. reflexivity.
  - unfold Rdiv. rewrite Rmult_assoc. ring.
  - unfold Rdiv. rewrite Rmult_assoc. ring.
Qed.

(** C7, counterexample: on a canvas 1600 wide (900 high) the radius scale is
    [900 * (3/8 - 1/5) / 256], not [(radiusMax - radiusMin) / 255]. *)
Lemma radius_scale_not_255 :
  rate_radius (freqMultiplyRate (initCanvasSize 1600)) <>
    (height (initCanvasSize 1600) * RADIUS_LIMIT_max -
     height (initCanvasSize 1600) * RADIUS_LIMIT_min) / 255.
Proof.
  unfold freqMultiplyRate, initCanvasSize, RADIUS_LIMIT_max, RADIUS_LIMIT_min,
    ASPECT_RATIO; simpl. intros H. field_simplify in H. lra.
Qed.

(** C7, amended: after [initCanvasSize w] the radius scale is
    [(radiusMax - radiusMin) / 256], with [radiusMax] and [radiusMin] the
    fractions 3/8 and 1/5 of the height, and the stroke of bin [i < 128]
    runs from [radiusMin] to
    [magnitude[i] * radiusScale * (volume * 0.5 + 0.5) + radiusMin]. *)
Theorem radius_scale_and_stroke (w : R) (dataArray : list nat)
    (volume angleOffset : R) (i : nat) :
  let cv := initCanvasSize w in
  let radiusMin := height cv * RADIUS_LIMIT_min in
  let radiusMax := height cv * RADIUS_LIMIT_max in
  let radiusScale := rate_radius (freqMultiplyRate cv) in
  let angle := 360 / 256 * INR i * 2 + angleOffset in
  radiusScale = (radiusMax - radiusMin) / 256 /\
  ((i < 128)%nat ->
   nth_error (spectrum cv dataArray volume angleOffset) i =
     Some (project cv radiusMin angle,
           project cv (INR (nth i dataArray 0%nat) * radiusScale
                         * (volume * 0.5 + 0.5) + radiusMin) angle)).
Proof.
  cbn zeta. split.
  - unfold freqMultiplyRate. simpl. unfold Rdiv. ring.
  - intros Hi. unfold spectrum. rewrite nth_error_map, nth_error_seq.
    replace (Nat.div FREQ_BIN_COUNT 2) with 128%nat by reflexivity.
    destruct (Nat.ltb i 128) eqn:E.
    + cbn [option_map Nat.add]. unfold spectrumSegment, freqMultiplyRate.
      cbn [rate_angleInDegrees rate_radius]. rewrite INR_FREQ_BIN_COUNT.
      reflexivity.
    + apply Nat.ltb_ge in E. lia.
Qed.

Lemma radius_scale_and_stroke_witness :
  let cv := initCanvasSize 1600 in
  let radiusMin := height cv * RADIUS_LIMIT_min in
  let radiusMax := height cv * RADIUS_LIMIT_max in
  let radiusScale := rate_radius (freqMultiplyRate cv) in
  let angle := 360 / 256 * INR 3 * 2 + 0 in
  radiusScale = (radiusMax - radiusMin) / 256 /\
  ((3 < 128)%nat /\
   nth_error (spectrum cv [0; 0; 0; 255]%nat (4 / 5) 0) 3 =
     Some (project cv radiusMin angle,
           project cv (INR (nth 3 [0; 0; 0; 255]%nat 0%nat) * radiusScale
                         * (4 / 5 * 0.5 + 0.5) + radiusMin) angle)).
Proof.
  destruct (radius_scale_and_stroke 1600 [0; 0; 0; 255]%nat (4 / 5) 0 3)
    as [H1 H2].
  split; [exact H1|]. split; [lia|]. apply H2. lia.
Defined.

Close Scope R_scope.

End GeometryFacts.

(* ------------------------------------------------------------------------- *)
(** ** Particle field *)

Module ParticlesFacts.

Import Geometry Particles.
Open Scope R_scope.

Lemma drawFragment_false_iff (cv : canvasSize) (p : fragment) :
  drawFragment cv p = false <-> outside cv p.
Proof.
  unfold drawFragment, outside, Rgt.
  repeat destruct Rlt_dec; split; intros H; try discriminate; try tauto.
Qed.

(** The fragment loop of [render], slot by slot: a drawn particle stays, a
    particle outside the canvas is overwritten by [spawnRecycle], and every
    particle drawn is the one left in its slot. *)
Lemma drawFragments_slots (sz : fragmentSize) (cv : canvasSize) (rnd : random)
    (arr : list fragment) :
  forall k i,
  let r := drawFragments sz cv rnd k i arr in
  length (fst (fst r)) = length arr /\
  (forall j p, nth_error arr j = Some p -> drawFragment cv p = true ->
     nth_error (fst (fst r)) j = Some p) /\
  (forall j p, nth_error arr j = Some p -> drawFragment cv p = false ->
     exists k0, nth_error (fst (fst r)) j =
       Some (spawnRecycle sz (rnd k0) (rnd (k0 + 1)%nat) (rnd (k0 + 2)%nat)
                         (rnd (k0 + 3)%nat) (rnd (k0 + 4)%nat))) /\
  (forall j q, In (j, q) (snd (fst r)) ->
     (i <= j)%nat /\ nth_error (fst (fst r)) (j - i) = Some q).
Proof.
  induction arr as [|p rest IH]; intros k i; cbn zeta.
  - simpl. split; [reflexivity|].
    split; [intros [|j] ? H; discriminate H|].
    split; [intros [|j] ? H; discriminate H|].
    intros j q [].
  - simpl. destruct (drawFragment cv p) eqn:Ep.
    + specialize (IH k (S i)). cbn zeta in IH.
      destruct (drawFragments sz cv rnd k (S i) rest) as [[rest' log] k'].
      simpl in *. destruct IH as [IHl [IHin [IHout IHlog]]].
      split; [rewrite IHl; reflexivity|].
      split; [intros [|j] p' Hj Hd; simpl in *; [congruence | eauto]|].
      split; [intros [|j] p' Hj Hd; simpl in *; [congruence | eauto]|].
      intros j q [Hq|Hq].
      * inversion Hq; subst. split; [lia|]. rewrite Nat.sub_diag. reflexivity.
      * destruct (IHlog j q Hq) as [Hij Hn]. split; [lia|].
        replace (j - i)%nat with (S (j - S i)) by lia. exact Hn.
    + specialize (IH (k + 5)%nat (S i)). cbn zeta in IH.
      destruct (drawFragments sz cv rnd (k + 5) (S i) rest) as [[rest' log] k'].
      simpl in *. destruct IH as [IHl [IHin [IHout IHlog]]].
      split; [rewrite IHl; reflexivity|].
      split; [intros [|j] p' Hj Hd; simpl in *; [congruence | eauto]|].
      split; [intros [|j] p' Hj Hd; simpl in *; [exists k; reflexivity | eauto]|].
      intros j q Hq.
      destruct (drawFragment cv _) in Hq; [destruct Hq as [Hq|Hq]|].
      * inversion Hq; subst. split; [lia|]. rewrite Nat.sub_diag. reflexivity.
      * destruct (IHlog j q Hq) as [Hij Hn]. split; [lia|].
        replace (j - i)%nat with (S (j - S i)) by lia. exact Hn.
      * destruct (IHlog j q Hq) as [Hij Hn]. split; [lia|].
        replace (j - i)%nat with (S (j - S i)) by lia. exact Hn.
Qed.

(** C3: in a draw pass, a particle whose bounding box lies wholly outside the
    canvas is overwritten in its slot by a fresh particle whose
    [positionRadius] is [minPositionRadius] minus its own [selfRadius]; the
    only particle the pass draws for that slot is the one left in it. *)
Theorem render_recycles_outside (sz : fragmentSize) (cv : canvasSize)
    (rnd : random) (k : nat) (arr : list fragment) (j : nat) (p : fragment) :
  nth_error arr j = Some p -> outside cv p ->
  let r := drawFragments sz cv rnd k 0 arr in
  (exists q, nth_error (fst (fst r)) j = Some q /\
     positionRadius q = minPositionRadius sz - selfRadius q /\
     exists r1 r2 r3 r4 r5, q = spawnRecycle sz r1 r2 r3 r4 r5) /\
  (forall q, In (j, q) (snd (fst r)) -> nth_error (fst (fst r)) j = Some q).
Proof.
  intros Hj Hout. cbn zeta.
  destruct (drawFragments_slots sz cv rnd arr k 0) as [_ [_ [Hrec Hlog]]].
  apply drawFragment_false_iff in Hout.
  split.
  - destruct (Hrec j p Hj Hout) as [k0 Hk0].
    eexists. split; [exact Hk0|]. split.
    + reflexivity.
    + do 5 eexists. reflexivity.
  - intros q Hq. destruct (Hlog j q Hq) as [_ Hn].
    rewrite Nat.sub_0_r in Hn. exact Hn.
Qed.

(** A particle far to the right of a 160 x 90 canvas. *)
Definition far_right : fragment := mkFragment 1 0 1000 90 0 0.

Lemma far_right_outside : outside (mkCanvas 160 90) far_right.
Proof.
  unfold outside, far_right, project, convertPolarToCartesian. simpl.
  rewrite Rminus_diag, Rmult_0_l, cos_0, sin_0.
  right. left. lra.
Qed.

Lemma render_recycles_outside_witness :
  let sz := initFragmentsSize (mkCanvas 160 90) in
  nth_error [far_right] 0 = Some far_right /\
  outside (mkCanvas 160 90) far_right /\
  let r := drawFragments sz (mkCanvas 160 90) (fun _ => 0) 0 0 [far_right] in
  (exists q, nth_error (fst (fst r)) 0 = Some q /\
     positionRadius q = minPositionRadius sz - selfRadius q /\
     exists r1 r2 r3 r4 r5, q = spawnRecycle sz r1 r2 r3 r4 r5) /\
  (forall q, In (0%nat, q) (snd (fst r)) -> nth_error (fst (fst r)) 0 = Some q).
Proof.
  cbn zeta. split; [reflexivity|]. split; [exact far_right_outside|].
  apply (render_recycles_outside _ _ (fun _ => 0) 0 [far_right] 0 far_right).
  - reflexivity.
  - exact far_right_outside.
Defined.

Lemma spawned_step_nonneg (p : fragment) : spawned p -> 0 <= stepRadius p.
Proof.
  intros [w [Hw [[r1 [r2 [r3 [r4 [r5 [r6 H]]]]]] | [r1 [r2 [r3 [r4 [r5 H]]]]]]]];
    repeat match type of H with _ /\ _ => destruct H as [? H] end; subst p;
    simpl; unfold FRAGMENTS_stepRadius; apply Rmult_le_pos; lra.
Qed.

Lemma initFragmentsFrom_spawned (w : R) (rnd : random) :
  0 <= w -> random_ok rnd ->
  forall n k,
  Forall spawned (initFragmentsFrom (initFragmentsSize (initCanvasSize w)) rnd k n).
Proof.
  intros Hw Hr. induction n as [|n IH]; intros k; simpl; constructor; [|apply IH].
  exists w. split; [exact Hw|]. left.
  do 6 eexists. repeat split; try reflexivity; apply Hr.
Qed.

Lemma iter_stepFragment (n : nat) (p : fragment) :
  positionRadius (Nat.iter n stepFragment p) = positionRadius p + INR n * stepRadius p /\
  stepRadius (Nat.iter n stepFragment p) = stepRadius p.
Proof.
  induction n as [|n [IH1 IH2]]; simpl.
  - split; [ring | reflexivity].
  - rewrite IH1, IH2. split; [|reflexivity].
    destruct n; simpl; ring.
Qed.

Lemma iter_tick (n : nat) (st : R * list fragment) :
  snd (Nat.iter n tick st) = map (Nat.iter n stepFragment) (snd st).
Proof.
  induction n as [|n IH]; simpl.
  - rewrite map_id. reflexivity.
  - rewrite IH, map_map. reflexivity.
Qed.

(** C4: every particle spawned by [initFragments] or by recycling has a
    non-negative [stepRadius]; hence, as long as no draw pass recycles it,
    the [positionRadius] of each slot never decreases over logical steps. *)
Theorem positionRadius_monotone_over_ticks :
  (forall w rnd, 0 <= w -> random_ok rnd ->
     Forall spawned (initFragments (initCanvasSize w) rnd)) /\
  (forall p, spawned p -> 0 <= stepRadius p) /\
  (forall (st : R * list fragment) (m n i : nat) (p q : fragment),
     Forall spawned (snd st) -> (m <= n)%nat ->
     nth_error (snd (Nat.iter m tick st)) i = Some p ->
     nth_error (snd (Nat.iter n tick st)) i = Some q ->
     positionRadius p <= positionRadius q).
Proof.
  split; [intros w rnd Hw Hr; apply initFragmentsFrom_spawned; assumption|].
  split; [exact spawned_step_nonneg|].
  intros st m n i p q Hsp Hmn Hp Hq.
  rewrite iter_tick, nth_error_map in Hp, Hq.
  destruct (nth_error (snd st) i) as [p0|] eqn:E; [|discriminate].
  simpl in Hp, Hq. injection Hp as <-. injection Hq as <-.
  assert (Hs : 0 <= stepRadius p0).
  { apply spawned_step_nonneg. rewrite Forall_forall in Hsp.
    apply Hsp. eapply nth_error_In. exact E. }
  destruct (iter_stepFragment m p0) as [Hm _].
  destruct (iter_stepFragment n p0) as [Hn _].
  rewrite Hm, Hn. apply le_INR in Hmn.
  apply Rplus_le_compat_l. apply Rmult_le_compat_r; assumption.
Qed.

(** One particle of a 1600-pixel-wide canvas, stepped once and twice. *)
Definition p_zero : fragment :=
  spawnInit (initFragmentsSize (initCanvasSize 1600)) 0 0 0 0 0 0.

Lemma positionRadius_monotone_over_ticks_witness :
  (0 <= 1600 /\ random_ok (fun _ => 0) /\
   Forall spawned (initFragments (initCanvasSize 1600) (fun _ => 0))) /\
  (Forall spawned [p_zero] /\ (1 <= 2)%nat /\
   nth_error (snd (Nat.iter 1 tick (0, [p_zero]))) 0 = Some (stepFragment p_zero) /\
   nth_error (snd (Nat.iter 2 tick (0, [p_zero]))) 0 =
     Some (stepFragment (stepFragment p_zero))) /\
  positionRadius (stepFragment p_zero) <=
    positionRadius (stepFragment (stepFragment p_zero)).
Proof.
  assert (Hsp : Forall spawned [p_zero]).
  { constructor; [|constructor]. exists 1600. split; [lra|]. left.
    exists 0, 0, 0, 0, 0, 0. repeat split; try lra. }
  assert (Hr : random_ok (fun _ => 0)) by (intros k; lra).
  destruct positionRadius_monotone_over_ticks as [Hinit [_ H]].
  split; [split; [lra|]; split; [exact Hr|]; apply Hinit; [lra | exact Hr]|].
  split; [split; [exact Hsp|]; split; [lia|]; split; reflexivity|].
  apply (H (0, [p_zero]) 1%nat 2%nat 0%nat);
    [exact Hsp | lia | reflexivity | reflexivity].
Defined.

Close Scope R_scope.

End ParticlesFacts.

(* ------------------------------------------------------------------------- *)
(** ** Playback state and the timers *)

Module PlayerFacts.

Import Scheduler Player SchedulerFacts.

(** The timer bookkeeping the code keeps: positive counters, and
    [stepEventId] is the handle of the one live interval timer, or 0 when
    there is none. *)
Definition timer_inv (s : sched) : Prop :=
  (0 < nextTimer s)%Z /\ (0 < nextFrame s)%Z /\
  ((stepEventId s = 0%Z /\ intervals s = []) \/
   (stepEventId s <> 0%Z /\ intervals s = [stepEventId s])).

Lemma startStep_inv (s : sched) : timer_inv s -> timer_inv (startStep s).
Proof.
  destruct s as [st fl nt nf iv fr]; unfold timer_inv, startStep; simpl.
  intros (Ht & Hf & Hi).
  destruct (Z.eqb_spec st 0) as [E|E]; simpl.
  - destruct Hi as [[_ ->]|[E' _]]; [|contradiction].
    destruct (Z.eqb_spec fl 0); simpl; repeat split; try lia;
      right; split; simpl; lia || reflexivity.
  - destruct (Z.eqb_spec fl 0); simpl; repeat split; try lia; exact Hi.
Qed.

Lemma stopStep_clears (s : sched) :
  timer_inv s ->
  timer_inv (stopStep s) /\ intervals (stopStep s) = [] /\
  stepEventId (stopStep s) = 0%Z /\ flushEventId (stopStep s) = 0%Z.
Proof.
  destruct s as [st fl nt nf iv fr]; unfold timer_inv, stopStep; simpl.
  intros (Ht & Hf & Hi).
  assert (Hiv : filter (fun x => negb (x =? st)%Z) iv = []).
  { destruct Hi as [[_ ->]|[_ ->]]; [reflexivity|].
    simpl. rewrite Z.eqb_refl. reflexivity. }
  destruct (Z.eqb_spec st 0) as [E|E]; simpl;
    destruct (Z.eqb_spec fl 0) as [F|F]; simpl.
  - destruct Hi as [[_ Hi]|[Hi _]]; [|contradiction].
    subst. repeat split; try lia. left; split; reflexivity.
  - destruct Hi as [[_ Hi]|[Hi _]]; [|contradiction].
    subst. repeat split; try lia. left; split; reflexivity.
  - rewrite Hiv. subst. repeat split; try lia. left; split; reflexivity.
  - rewrite Hiv. repeat split; try lia. left; split; reflexivity.
Qed.

Lemma render_tail_inv (s : sched) : timer_inv s -> timer_inv (render_tail s).
Proof.
  destruct s as [st fl nt nf iv fr]; unfold timer_inv, render_tail; simpl.
  intros (Ht & Hf & Hi).
  destruct (negb (fl =? 0)%Z); simpl; (split; [lia|]); (split; [lia|]); exact Hi.
Qed.

Lemma fire_frame_inv (s : sched) : timer_inv s -> timer_inv (fire_frame s).
Proof.
  destruct s as [st fl nt nf iv [|f rest]]; unfold fire_frame; simpl; [tauto|].
  intros H. apply render_tail_inv. exact H.
Qed.

Lemma oneshot_redraw_inv (s : sched) : timer_inv s -> timer_inv (oneshot_redraw s).
Proof.
  destruct s as [st fl nt nf iv fr]; unfold timer_inv, oneshot_redraw; simpl.
  intros (Ht & Hf & Hi).
  destruct (fl =? 0)%Z; simpl; (split; [lia|]); (split; [lia|]); exact Hi.
Qed.

Lemma step_inv (i : input) (p : player) :
  timer_inv (sch p) -> timer_inv (sch (fst (step i p))).
Proof.
  intros H. destruct i as [| [] | |]; simpl.
  - unfold togglePlay.
    destruct (negb (isLoading p) && paused p);
      [destruct (negb (isContextResumed p))|]; exact H.
  - apply (stopStep_clears _ H).
  - apply (startStep_inv _ H).
  - exact H.
  - exact H.
  - exact H.
  - apply (fire_frame_inv _ H).
  - apply (oneshot_redraw_inv _ H).
Qed.

Lemma run_inv (l : list input) (p : player) :
  timer_inv (sch p) -> timer_inv (sch (fst (run p l))).
Proof.
  revert p. induction l as [|i l IH]; intros p H; simpl; [exact H|].
  destruct (step i p) as [p1 e1] eqn:E1.
  destruct (run p1 l) as [p2 e2] eqn:E2. simpl.
  change p2 with (fst (p2, e2)). rewrite <- E2. apply IH.
  change p1 with (fst (p1, e1)). rewrite <- E1. apply step_inv. exact H.
Qed.

Lemma initPlayer_inv : timer_inv (sch initPlayer).
Proof.
  unfold timer_inv; simpl. split; [lia|]. split; [lia|]. left; split; reflexivity.
Qed.

Lemma run_app (p : player) (l1 l2 : list input) :
  fst (run p (l1 ++ l2)) = fst (run (fst (run p l1)) l2).
Proof.
  revert p. induction l1 as [|i l1 IH]; intros p; simpl; [reflexivity|].
  destruct (step i p) as [p1 e1].
  specialize (IH p1).
  destruct (run p1 (l1 ++ l2)) as [q e] eqn:E. simpl in IH |- *.
  destruct (run p1 l1) as [q1 f1]. simpl in IH |- *.
  destruct (run q1 l2) as [q2 f2]. simpl in IH |- *. exact IH.
Qed.

(** The number of [context.resume()] requests in a list of effects. *)
Definition resumes (l : list effect) : nat :=
  length (filter (fun e => match e with ContextResume => true | _ => false end) l).

Lemma resumes_app (l1 l2 : list effect) :
  resumes (l1 ++ l2) = (resumes l1 + resumes l2)%nat.
Proof. unfold resumes. rewrite filter_app, length_app. reflexivity. Qed.

Lemma step_resumes (i : input) (p : player) :
  (resumes (snd (step i p)) + Nat.b2n (isContextResumed p))%nat =
  Nat.b2n (isContextResumed (fst (step i p))).
Proof.
  destruct i as [| [] | |]; simpl; try reflexivity.
  unfold togglePlay.
  destruct (negb (isLoading p) && paused p);
    [destruct (isContextResumed p)|]; reflexivity.
Qed.

Lemma run_resumes (l : list input) (p : player) :
  (resumes (snd (run p l)) + Nat.b2n (isContextResumed p))%nat =
  Nat.b2n (isContextResumed (fst (run p l))).
Proof.
  revert p. induction l as [|i l IH]; intros p; simpl; [reflexivity|].
  pose proof (step_resumes i p) as Hs.
  destruct (step i p) as [p1 e1]. simpl in Hs.
  specialize (IH p1).
  destruct (run p1 l) as [p2 e2]. simpl in IH |- *.
  rewrite resumes_app. lia.
Qed.

(** X1: whatever the sequence of clicks, media events, animation frames and
    one-shot redraws, at most one logical-step interval timer is live, and
    [stepEventId] holds its handle ([0] when there is none). *)
Theorem interval_timer_unique (l : list input) :
  let s := sch (fst (run initPlayer l)) in
  (stepEventId s = 0%Z /\ intervals s = []) \/
  (stepEventId s <> 0%Z /\ intervals s = [stepEventId s]).
Proof.
  cbn zeta. destruct (run_inv l initPlayer initPlayer_inv) as (_ & _ & H).
  exact H.
Qed.

(** X2: after a [pause] event, whatever happened before, no interval timer is
    left and both handles are back to 0. *)
Theorem pause_event_stops_timer (l : list input) :
  let p := fst (run initPlayer (l ++ [Media EvPause])) in
  isPlaying p = false /\ intervals (sch p) = [] /\
  stepEventId (sch p) = 0%Z /\ flushEventId (sch p) = 0%Z.
Proof.
  cbn zeta. rewrite run_app.
  pose proof (run_inv l initPlayer initPlayer_inv) as H.
  destruct (run initPlayer l) as [q e]. simpl in H |- *.
  destruct (stopStep_clears _ H) as (_ & H1 & H2 & H3).
  split; [reflexivity|]. split; [exact H1|]. split; [exact H2|exact H3].
Qed.

Lemma fire_frame_frames (s : sched) :
  flushEventId s = 0%Z -> frames (fire_frame s) = tl (frames s).
Proof.
  destruct s as [st fl nt nf iv [|f rest]]; simpl; intros H; [reflexivity|].
  unfold render_tail; simpl. rewrite H. reflexivity.
Qed.

Lemma tl_skipn {A} (n : nat) (l : list A) : tl (skipn n l) = skipn (S n) l.
Proof.
  revert l. induction n as [|n IH]; intros [|a l]; simpl; try reflexivity.
  apply IH.
Qed.

Lemma iter_fire_frame_frames (s : sched) (n : nat) :
  flushEventId s = 0%Z ->
  frames (Nat.iter n fire_frame s) = skipn n (frames s) /\
  flushEventId (Nat.iter n fire_frame s) = 0%Z.
Proof.
  intros H. induction n as [|n [IH1 IH2]]; simpl; [split; [reflexivity|exact H]|].
  rewrite fire_frame_flush, fire_frame_frames, IH1 by exact IH2.
  split; [apply tl_skipn | exact IH2].
Qed.

(** X3: while no render loop is registered ([flushEventId = 0]), each pending
    frame renders once and asks for no other: after as many frames as are
    pending, none is left. *)
Theorem oneshot_frames_drain (s : sched) :
  flushEventId s = 0%Z ->
  frames (Nat.iter (redraw_chains s) fire_frame s) = [].
Proof.
  intros H. destruct (iter_fire_frame_frames s (redraw_chains s) H) as [H1 _].
  rewrite H1. unfold redraw_chains. apply skipn_all.
Qed.

Lemma oneshot_frames_drain_witness :
  flushEventId (oneshot_redraw (stopStep (startStep init_sched))) = 0%Z /\
  frames (Nat.iter (redraw_chains (oneshot_redraw (stopStep (startStep init_sched))))
            fire_frame (oneshot_redraw (stopStep (startStep init_sched)))) = [].
Proof.
  split; [reflexivity|]. apply oneshot_frames_drain. reflexivity.
Defined.

(** X4: [context.resume()] is requested at most once over any run, and it
    has been requested exactly when [isContextResumed] is set. *)
Theorem context_resumed_once (l : list input) :
  resumes (snd (run initPlayer l)) =
  Nat.b2n (isContextResumed (fst (run initPlayer l))).
Proof.
  pose proof (run_resumes l initPlayer) as H. simpl in H. lia.
Qed.

(** X5: a click while the media is loading requests a pause, even if the
    media element is paused. *)
Theorem togglePlay_while_loading_pauses (p : player) :
  isLoading p = true ->
  snd (togglePlay p) = [AudioPause] /\ paused (fst (togglePlay p)) = true.
Proof.
  intros H. unfold togglePlay. rewrite H. simpl. split; reflexivity.
Qed.

Lemma togglePlay_while_loading_pauses_witness :
  isLoading initPlayer = true /\
  snd (togglePlay initPlayer) = [AudioPause] /\
  paused (fst (togglePlay initPlayer)) = true.
Proof.
  split; [reflexivity|]. apply togglePlay_while_loading_pauses. reflexivity.
Defined.

(** X6: a [waiting] event after [play] clears [isPlaying] but stops
    nothing: the interval timer and the render loop keep running. *)
Theorem waiting_keeps_stepper_running (l : list input) :
  let p := fst (run initPlayer (l ++ [Media EvPlay; Media EvWaiting])) in
  isPlaying p = false /\ isLoading p = true /\
  stepEventId (sch p) <> 0%Z /\ flushEventId (sch p) <> 0%Z.
Proof.
  cbn zeta. rewrite run_app.
  pose proof (run_inv l initPlayer initPlayer_inv) as H.
  destruct (run initPlayer l) as [q e]. simpl in H |- *.
  destruct H as (Ht & Hf & _).
  destruct (startStep_handles (sch q) Ht Hf) as [H1 H2].
  split; [reflexivity|]. split; [reflexivity|]. split; assumption.
Qed.

End PlayerFacts.

(* ------------------------------------------------------------------------- *)
(** ** Volume, progress and user actions *)

Module ControllerMoreFacts.

Import Controller MediaMore ControllerFacts.
Open Scope Q_scope.

(** What the controller keeps in step: [audio.muted] and [isMuted], a volume
    in [[0,1]], and the indicator height at [volume * 100] percent. *)
Definition ctrl_inv (c : ctrl) : Prop :=
  muted c = isMuted c /\ 0 <= volume c <= 1 /\ barVolumeHeight c == volume c * 100.

Lemma toggleMute_inv (c : ctrl) : ctrl_inv c -> ctrl_inv (toggleMute c).
Proof. intros (Hm & Hv & Hb). unfold ctrl_inv; simpl. auto. Qed.

Lemma setVolume_inv (v : num) (c c' : ctrl) :
  ctrl_inv c -> setVolume v c = Ok c' -> ctrl_inv c'.
Proof.
  intros Hc H. unfold setVolume in H.
  destruct v as [x|]; [|destruct (isMuted c); discriminate].
  destruct (num_lt (Fin x) (Fin 0)) eqn:E0.
  - injection H as <-. destruct (negb (isMuted c)); [apply toggleMute_inv|]; exact Hc.
  - apply num_lt_fin_false in E0.
    destruct Hc as (Hm & Hv & Hb).
    destruct (num_lt (Fin 1) (Fin x)) eqn:E1.
    + destruct (isMuted c) eqn:Ei; simpl in H; injection H as <-;
        unfold ctrl_inv; simpl; rewrite ?Hm, ?Ei;
        (split; [reflexivity|]); (split; [split; discriminate|reflexivity]).
    + apply num_lt_fin_false in E1.
      destruct (isMuted c) eqn:Ei; simpl in H; injection H as <-;
        unfold ctrl_inv; simpl; rewrite ?Hm, ?Ei;
        (split; [reflexivity|]); (split; [split; assumption|reflexivity]).
Qed.

Lemma set_currentTime_fields (t : num) (c c' : ctrl) :
  set_currentTime t c = Ok c' ->
  duration c' = duration c /\ volume c' = volume c /\ muted c' = muted c /\
  isMuted c' = isMuted c /\ barVolumeHeight c' = barVolumeHeight c.
Proof.
  destruct t as [x|]; simpl; [|discriminate]. intros H. injection H as <-.
  simpl. auto.
Qed.

Lemma setProgress_inv (t : num) (c c' : ctrl) :
  ctrl_inv c -> setProgress t c = Ok c' -> ctrl_inv c'.
Proof.
  intros (Hm & Hv & Hb) H. apply set_currentTime_fields in H.
  destruct H as (_ & H1 & H2 & H3 & H4).
  unfold ctrl_inv. rewrite H1, H2, H3, H4. auto.
Qed.

Lemma jumpProgress_inv (x w : Q) (c c' : ctrl) :
  ctrl_inv c -> jumpProgress x w c = Ok c' -> ctrl_inv c'.
Proof. apply setProgress_inv. Qed.

Lemma scrollEvent_inv (dx dy : num) (w h : Q) (c c' : ctrl) :
  ctrl_inv c -> scrollEvent dx dy w h c = Ok c' -> ctrl_inv c'.
Proof.
  intros Hc H. unfold scrollEvent in H.
  destruct (truthy dx).
  - destruct (setProgress _ c) as [c1|] eqn:E; simpl in H; [|discriminate].
    pose proof (setProgress_inv _ _ _ Hc E) as Hc1.
    destruct (truthy dy); [exact (setVolume_inv _ _ _ Hc1 H)|].
    injection H as <-. exact Hc1.
  - simpl in H. destruct (truthy dy); [exact (setVolume_inv _ _ _ Hc H)|].
    injection H as <-. exact Hc.
Qed.

Lemma act_inv (a : action) (c c' : ctrl) :
  ctrl_inv c -> act a c = Ok c' -> ctrl_inv c'.
Proof.
  intros Hc H. destruct a; simpl in H.
  - injection H as <-. apply toggleMute_inv. exact Hc.
  - exact (setVolume_inv _ _ _ Hc H).
  - exact (setVolume_inv _ _ _ Hc H).
  - exact (jumpProgress_inv _ _ _ _ Hc H).
  - exact (scrollEvent_inv _ _ _ _ _ _ Hc H).
Qed.

Lemma actAll_inv (l : list action) (c c' : ctrl) :
  ctrl_inv c -> actAll l c = Ok c' -> ctrl_inv c'.
Proof.
  revert c. induction l as [|a l IH]; intros c Hc H; simpl in H.
  - injection H as <-. exact Hc.
  - destruct (act a c) as [c1|] eqn:E; simpl in H; [|discriminate].
    exact (IH c1 (act_inv _ _ _ Hc E) H).
Qed.

(** X7: whatever the user does with the mute button, the volume bar, the
    progress bar and the wheel, as long as no handler throws, [audio.muted]
    and [isMuted] agree, the volume stays in [[0,1]] and the indicator shows
    [volume * 100] percent. *)
Theorem controller_state_consistent (l : list action) (c : ctrl) :
  actAll l initial = Ok c ->
  muted c = isMuted c /\ 0 <= volume c <= 1 /\ barVolumeHeight c == volume c * 100.
Proof.
  intros H. apply (actAll_inv l initial c); [|exact H].
  unfold ctrl_inv; simpl. split; [reflexivity|].
  split; [split; discriminate|reflexivity].
Qed.

Lemma controller_state_consistent_witness :
  actAll [AJumpVolume 30 100; AToggleMute; AScroll (Fin 0) NaN 1280 720] initial
    = Ok (mkCtrl 0 NaN ((100 - 30) / 100) true true ((100 - 30) / 100 * 100)) /\
  let c := mkCtrl 0 NaN ((100 - 30) / 100) true true ((100 - 30) / 100 * 100) in
  muted c = isMuted c /\ 0 <= volume c <= 1 /\ barVolumeHeight c == volume c * 100.
Proof.
  split; [vm_compute; reflexivity|].
  apply (controller_state_consistent
           [AJumpVolume 30 100; AToggleMute; AScroll (Fin 0) NaN 1280 720]).
  vm_compute; reflexivity.
Defined.

(** X8: with a known, non-negative duration [d], [setProgress] never throws
    on a finite time, the new [currentTime] lies in [[0,d]], and a time
    already in range is kept as it is. *)
Theorem setProgress_clamps (c : ctrl) (d t : Q) :
  duration c = Fin d -> 0 <= d ->
  exists c', setProgress (Fin t) c = Ok c' /\
    0 <= currentTime c' <= d /\ (0 <= t <= d -> currentTime c' = t).
Proof.
  intros Hd Hd0. unfold setProgress. rewrite Hd.
  destruct (num_lt (Fin t) (Fin 0)) eqn:E0.
  - apply num_lt_fin in E0. eexists; split; [reflexivity|]. simpl.
    split; [split; [apply Qle_refl | exact Hd0]|].
    intros [H _]. exfalso. apply (Qlt_not_le t 0); assumption.
  - apply num_lt_fin_false in E0.
    destruct (num_lt (Fin d) (Fin t)) eqn:E1.
    + apply num_lt_fin in E1. eexists; split; [reflexivity|]. simpl.
      split; [split; [exact Hd0 | apply Qle_refl]|].
      intros [_ H]. exfalso. apply (Qlt_not_le d t); assumption.
    + apply num_lt_fin_false in E1. eexists; split; [reflexivity|]. simpl.
      split; [split; assumption|]. intros _. reflexivity.
Qed.

Lemma setProgress_clamps_witness :
  duration (mkCtrl 0 (Fin 240) (8 # 10) false false 80) = Fin 240 /\ 0 <= 240 /\
  exists c', setProgress (Fin 300) (mkCtrl 0 (Fin 240) (8 # 10) false false 80) = Ok c' /\
    0 <= currentTime c' <= 240 /\ (0 <= 300 <= 240 -> currentTime c' = 300).
Proof.
  split; [reflexivity|]. split; [discriminate|].
  apply setProgress_clamps; [reflexivity | discriminate].
Defined.

Lemma setProgress_fin_ok (c : ctrl) (d t : Q) :
  duration c = Fin d ->
  exists c', setProgress (Fin t) c = Ok c' /\ duration c' = Fin d.
Proof.
  intros Hd. unfold setProgress. rewrite Hd.
  destruct (num_lt (Fin t) (Fin 0)); [|destruct (num_lt (Fin d) (Fin t))];
    (eexists; split; [reflexivity | exact Hd]).
Qed.

Lemma setVolume_fin_ok (c : ctrl) (v : Q) : exists c', setVolume (Fin v) c = Ok c'.
Proof.
  unfold setVolume.
  destruct (num_lt (Fin v) (Fin 0)); [eexists; reflexivity|].
  destruct (num_lt (Fin 1) (Fin v)), (isMuted c); simpl; eexists; reflexivity.
Qed.

(** X9: once the duration is known and finite (neither NaN nor the
    [+Infinity] of an unbounded stream, with which a backward wheel step
    would assign [+Infinity] to [currentTime] and throw), a wheel event never
    throws on a canvas of non-zero size, whatever its deltas (NaN ones
    included). *)
Theorem scrollEvent_known_duration_total (dx dy : num) (w h : Q) (c : ctrl) (d : Q) :
  duration c = Fin d -> ~ w == 0 -> ~ h == 0 ->
  exists c', scrollEvent dx dy w h c = Ok c'.
Proof.
  intros Hd Hw Hh.
  assert (Ew : Qeq_bool w 0 = false).
  { destruct (Qeq_bool w 0) eqn:E; [|reflexivity].
    exfalso. apply Hw. apply Qeq_bool_iff. exact E. }
  assert (Eh : Qeq_bool h 0 = false).
  { destruct (Qeq_bool h 0) eqn:E; [|reflexivity].
    exfalso. apply Hh. apply Qeq_bool_iff. exact E. }
  unfold scrollEvent.
  assert (H1 : exists c1, (if truthy dx then
       setProgress (num_sub (Fin (currentTime c))
                  (num_mul (num_div dx (Fin w)) (duration c))) c
     else Ok c) = Ok c1).
  { destruct dx as [x|]; simpl; [|eexists; reflexivity].
    destruct (negb (Qeq_bool x 0)); [|eexists; reflexivity].
    rewrite Ew, Hd. simpl.
    destruct (setProgress_fin_ok c d (currentTime c - x / w * d) Hd) as [c1 [E _]].
    exists c1. exact E. }
  destruct H1 as [c1 ->]. simpl.
  destruct dy as [y|]; simpl; [|eexists; reflexivity].
  destruct (negb (Qeq_bool y 0)); [|eexists; reflexivity].
  rewrite Eh. simpl. apply setVolume_fin_ok.
Qed.

Lemma scrollEvent_known_duration_total_witness :
  duration (mkCtrl 30 (Fin 240) (8 # 10) false false 80) = Fin 240 /\
  ~ 1280 == 0 /\ ~ 720 == 0 /\
  exists c', scrollEvent (Fin 10) (Fin 100) 1280 720
               (mkCtrl 30 (Fin 240) (8 # 10) false false 80) = Ok c'.
Proof.
  split; [reflexivity|]. split; [discriminate|]. split; [discriminate|].
  apply (scrollEvent_known_duration_total _ _ _ _ _ 240);
    [reflexivity | discriminate | discriminate].
Defined.

(** X10: a click on the volume bar at height [offsetY] within the bar sets
    the volume to [(clientHeight - offsetY) / clientHeight] and un-mutes. *)
Theorem jumpVolume_inside_bar (y h : Q) (c : ctrl) :
  0 < h -> 0 <= y <= h -> muted c = isMuted c ->
  exists c', jumpVolume y h c = Ok c' /\
    volume c' = (h - y) / h /\ muted c' = false /\ isMuted c' = false /\
    barVolumeHeight c' = (h - y) / h * 100.
Proof.
  intros Hh [Hy0 Hyh] Hm.
  assert (Eh : Qeq_bool h 0 = false).
  { destruct (Qeq_bool h 0) eqn:E; [|reflexivity].
    apply Qeq_bool_iff in E. rewrite E in Hh. discriminate. }
  assert (Hlo : 0 <= (h - y) / h).
  { apply Qle_shift_div_l; [exact Hh|]. rewrite Qmult_0_l.
    apply (Qplus_le_l _ _ y). ring_simplify. exact Hyh. }
  assert (Hhi : (h - y) / h <= 1).
  { apply Qle_shift_div_r; [exact Hh|]. rewrite Qmult_1_l.
    apply (Qplus_le_l _ _ (y - h)). ring_simplify. exact Hy0. }
  unfold jumpVolume, setVolume. simpl num_div. rewrite Eh.
  destruct (num_lt (Fin ((h - y) / h)) (Fin 0)) eqn:E0.
  { apply num_lt_fin in E0. exfalso. exact (Qlt_not_le _ _ E0 Hlo). }
  destruct (num_lt (Fin 1) (Fin ((h - y) / h))) eqn:E1.
  { apply num_lt_fin in E1. exfalso. exact (Qlt_not_le _ _ E1 Hhi). }
  destruct (isMuted c) eqn:Ei; simpl; (eexists; split; [reflexivity|]); simpl.
  - rewrite Hm. auto.
  - rewrite Hm. auto.
Qed.

Lemma jumpVolume_inside_bar_witness :
  0 < 100 /\ 0 <= 30 <= 100 /\
  muted (mkCtrl 0 NaN (8 # 10) true true 80) = isMuted (mkCtrl 0 NaN (8 # 10) true true 80) /\
  exists c', jumpVolume 30 100 (mkCtrl 0 NaN (8 # 10) true true 80) = Ok c' /\
    volume c' = (100 - 30) / 100 /\ muted c' = false /\ isMuted c' = false /\
    barVolumeHeight c' = (100 - 30) / 100 * 100.
Proof.
  split; [reflexivity|]. split; [split; discriminate|]. split; [reflexivity|].
  apply jumpVolume_inside_bar; [reflexivity | split; discriminate | reflexivity].
Defined.

(** X11: a click below the volume bar ([offsetY > clientHeight]) mutes and
    leaves the volume and its indicator as they were. *)
Theorem jumpVolume_below_bar_mutes (y h : Q) (c : ctrl) :
  0 < h -> h < y -> muted c = isMuted c ->
  exists c', jumpVolume y h c = Ok c' /\
    muted c' = true /\ isMuted c' = true /\ volume c' = volume c /\
    barVolumeHeight c' = barVolumeHeight c.
Proof.
  intros Hh Hy Hm.
  assert (Eh : Qeq_bool h 0 = false).
  { destruct (Qeq_bool h 0) eqn:E; [|reflexivity].
    apply Qeq_bool_iff in E. rewrite E in Hh. discriminate. }
  assert (Hneg : (h - y) / h < 0).
  { apply Qlt_shift_div_r; [exact Hh|]. rewrite Qmult_0_l.
    apply (Qplus_lt_l _ _ y). ring_simplify. exact Hy. }
  unfold jumpVolume, setVolume. simpl num_div. rewrite Eh.
  destruct (num_lt (Fin ((h - y) / h)) (Fin 0)) eqn:E0.
  2:{ apply num_lt_fin_false in E0. exfalso. exact (Qlt_not_le _ _ Hneg E0). }
  destruct (isMuted c) eqn:Ei; simpl; (eexists; split; [reflexivity|]); simpl.
  - rewrite Hm. auto.
  - rewrite Hm. auto.
Qed.

Lemma jumpVolume_below_bar_mutes_witness :
  0 < 100 /\ 100 < 104 /\ muted initial = isMuted initial /\
  exists c', jumpVolume 104 100 initial = Ok c' /\
    muted c' = true /\ isMuted c' = true /\ volume c' = volume initial /\
    barVolumeHeight c' = barVolumeHeight initial.
Proof.
  split; [reflexivity|]. split; [reflexivity|]. split; [reflexivity|].
  apply jumpVolume_below_bar_mutes; reflexivity.
Defined.

Close Scope Q_scope.

End ControllerMoreFacts.

(* ------------------------------------------------------------------------- *)
(** ** Progress display *)

Module SeekUIFacts.

Import Controller SeekUI.
Open Scope Q_scope.




(** X13: [endSeeking] brings the label, the played bar and the seeker home
    to the state that [render] keeps: the next frame at the same playing
    position changes nothing. *)
Theorem endSeeking_is_render_fixpoint (ct : Q) (dur : num) (u : ui) :
  renderProgress ct dur (endSeeking ct dur u) = endSeeking ct dur u /\
  barPlayed (endSeeking ct dur u) = seekerLeft (endSeeking ct dur u) /\
  timeNow (endSeeking ct dur u) = Fin ct.
Proof. repeat split. Qed.

Close Scope Q_scope.

End SeekUIFacts.

(* ------------------------------------------------------------------------- *)
(** ** Buffered range *)

Module BufferedFacts.

Import MediaMore.
Open Scope Q_scope.

Lemma fold_latest (ends : list Q) (acc : Q) :
  let r := fold_left (fun acc e => if negb (Qle_bool e acc) then e else acc) ends acc in
  acc <= r /\ (forall e, In e ends -> e <= r) /\ (r = acc \/ In r ends).
Proof.
  revert acc. induction ends as [|e ends IH]; intros acc; cbn zeta.
  - simpl. split; [apply Qle_refl|]. split; [intros e []|left; reflexivity].
  - simpl. set (acc' := if negb (Qle_bool e acc) then e else acc).
    assert (Hacc : acc <= acc' /\ e <= acc').
    { unfold acc'. destruct (Qle_bool e acc) eqn:E; simpl.
      - apply Qle_bool_iff in E. split; [apply Qle_refl|exact E].
      - split; [|apply Qle_refl]. apply Qlt_le_weak, Qnot_le_lt.
        intros H. apply Qle_bool_iff in H. congruence. }
    destruct (IH acc') as (H1 & H2 & H3). cbn zeta in H1, H2, H3.
    split; [exact (Qle_trans _ _ _ (proj1 Hacc) H1)|].
    split.
    + intros e' [<-|Hin]; [exact (Qle_trans _ _ _ (proj2 Hacc) H1)|exact (H2 e' Hin)].
    + destruct H3 as [H3|H3]; [|right; right; exact H3].
      rewrite H3. unfold acc'. destruct (negb (Qle_bool e acc));
        [right; left; reflexivity|left; reflexivity].
Qed.

(** X14: the [progress] listener's [latestBuffered] is the largest buffered
    range end, or 0 when nothing is buffered: it is non-negative, no end
    exceeds it, and it is 0 or one of the ends. *)
Theorem latestBuffered_is_max (ends : list Q) :
  let lb := latestBuffered ends in
  0 <= lb /\ (forall e, In e ends -> e <= lb) /\ (lb = 0 \/ In lb ends).
Proof. exact (fold_latest ends 0). Qed.

Close Scope Q_scope.

End BufferedFacts.

(* ------------------------------------------------------------------------- *)
(** ** Time labels *)

Module TimeFormatFacts.

Import Controller TimeFormat String Ascii.
Open Scope Q_scope.

Lemma Qfloor_unique (z : Z) (x : Q) :
  inject_Z z <= x -> x < inject_Z z + 1 -> Qfloor x = z.
Proof.
  intros H1 H2.
  assert (A : (z <= Qfloor x)%Z).
  { rewrite <- (Qfloor_Z z). apply Qfloor_resp_le. exact H1. }
  assert (B : (Qfloor x < z + 1)%Z).
  { rewrite Zlt_Qlt, inject_Z_plus.
    exact (Qle_lt_trans _ _ _ (Qfloor_le x) H2). }
  lia.
Qed.

(** The label of a whole number of seconds [z]. *)
Definition label_Z (z : Z) : String.string :=
  String.append (pad2 (Some (z / 60)%Z))
                (String.append (String.String ":"%char String.EmptyString)
                               (pad2 (Some (z mod 60)%Z))).

Lemma floor_div60 (s : Q) :
  0 <= s ->
  Qfloor (s / 60) = (Qfloor s / 60)%Z /\
  Qtrunc (s / 60) = (Qfloor s / 60)%Z /\
  Qfloor (s - 60 * inject_Z (Qfloor s / 60)%Z) = (Qfloor s mod 60)%Z.
Proof.
  intros Hs.
  set (f := Qfloor s).
  pose proof (Qfloor_le s) as Hf1. pose proof (Qlt_floor s) as Hf2.
  fold f in Hf1, Hf2. rewrite inject_Z_plus in Hf2.
  pose proof (Z.div_mod f 60 ltac:(lia)) as Hdm.
  pose proof (Z.mod_pos_bound f 60 ltac:(lia)) as Hr.
  set (q := (f / 60)%Z) in *. set (r := (f mod 60)%Z) in *.
  assert (Ef : inject_Z f == 60 * inject_Z q + inject_Z r).
  { rewrite Hdm, inject_Z_plus, inject_Z_mult. reflexivity. }
  assert (Hr0 : 0 <= inject_Z r) by (change 0 with (inject_Z 0); rewrite <- Zle_Qle; lia).
  assert (Hr1 : inject_Z r + 1 <= 60).
  { change 1 with (inject_Z 1). change 60 with (inject_Z 60).
    rewrite <- inject_Z_plus, <- Zle_Qle. lia. }
  change (inject_Z 1) with 1 in Hf2. clearbody q r f.
  change (s / 60) with (s * (1 # 60)).
  assert (Hq : Qfloor (s * (1 # 60)) = q).
  { apply Qfloor_unique; Lqa.lra. }
  split; [exact Hq|]. split.
  - unfold Qtrunc. destruct (Qle_bool 0 (s * (1 # 60))) eqn:E; [exact Hq|].
    exfalso. assert (H : 0 <= s * (1 # 60)) by Lqa.lra.
    apply Qle_bool_iff in H. congruence.
  - apply Qfloor_unique; Lqa.lra.
Qed.

Lemma parse_nonneg (s : Q) :
  0 <= s -> parseSecondsToTime (Fin s) = label_Z (Qfloor s).
Proof.
  intros Hs. destruct (floor_div60 s Hs) as (H1 & H2 & H3).
  unfold parseSecondsToTime, label_Z, num_div, jsmod, floorZ.
  change (Qeq_bool 60 0) with false. cbv iota.
  rewrite H1, H2, H3. reflexivity.
Qed.

Definition roundtrip_ok (z : Z) : bool :=
  match read_mmss (label_Z z) with Some m => Z.eqb m z | None => false end.

(** [roundtrip_ok] on [z], [z + 1], ..., [z + n - 1]. *)
Fixpoint roundtrip_from (n : nat) (z : Z) : bool :=
  match n with
  | O => true
  | S n' => roundtrip_ok z && roundtrip_from n' (z + 1)
  end.

Lemma roundtrip_from_spec (n : nat) (z k : Z) :
  roundtrip_from n z = true -> (z <= k < z + Z.of_nat n)%Z -> roundtrip_ok k = true.
Proof.
  revert z. induction n as [|n IH]; intros z H Hk; simpl in H; [lia|].
  apply andb_true_iff in H. destruct H as [H1 H2].
  destruct (Z.eq_dec k z) as [->|Hne]; [exact H1|].
  apply (IH (z + 1)%Z H2). lia.
Qed.

Lemma roundtrip_6000 : roundtrip_from (Z.to_nat 6000) 0 = true.
Proof. vm_compute. reflexivity. Qed.

(** X15: below 100 minutes, the label [mm:ss] of a non-negative time reads
    back as its whole number of seconds: the label drops the fraction and
    nothing else. *)
Theorem parseSecondsToTime_roundtrip (s : Q) :
  0 <= s -> s < 6000 ->
  read_mmss (parseSecondsToTime (Fin s)) = Some (Qfloor s).
Proof.
  intros H0 H1. rewrite parse_nonneg by exact H0.
  assert (Hf0 : (0 <= Qfloor s)%Z).
  { rewrite <- (Qfloor_Z 0). apply Qfloor_resp_le. exact H0. }
  assert (Hf1 : (Qfloor s < 6000)%Z).
  { rewrite Zlt_Qlt. exact (Qle_lt_trans _ _ _ (Qfloor_le s) H1). }
  assert (H : roundtrip_ok (Qfloor s) = true).
  { apply (roundtrip_from_spec _ 0 _ roundtrip_6000).
    rewrite Z2Nat.id by lia. lia. }
  unfold roundtrip_ok in H.
  destruct (read_mmss (label_Z (Qfloor s))) as [m|]; [|discriminate H].
  f_equal. apply Z.eqb_eq. exact H.
Qed.

Lemma parseSecondsToTime_roundtrip_witness :
  0 <= (754 # 10) /\ (754 # 10) < 6000 /\
  read_mmss (parseSecondsToTime (Fin (754 # 10))) = Some (Qfloor (754 # 10)).
Proof.
  split; [discriminate|]. split; [reflexivity|].
  apply parseSecondsToTime_roundtrip; [discriminate|reflexivity].
Defined.

(** X16: a negative time gets a malformed label: the negative minute count
    is padded with a leading zero, so the label starts with ["0-"]. *)
Theorem parseSecondsToTime_negative (s : Q) :
  s < 0 ->
  exists rest, parseSecondsToTime (Fin s) = String.append "0-"%string rest.
Proof.
  intros Hs.
  assert (Hm : (Qfloor (s / 60) < 0)%Z).
  { rewrite Zlt_Qlt. apply (Qle_lt_trans _ _ _ (Qfloor_le _)).
    change (s / 60) with (s * (1 # 60)). change (inject_Z 0) with 0. Lqa.lra. }
  unfold parseSecondsToTime, num_div, floorZ, jsmod.
  change (Qeq_bool 60 0) with false. cbv iota.
  unfold pad2 at 1. destruct (Qfloor (s / 60) <? 10)%Z eqn:E; [|lia].
  unfold string_of_Z. destruct (Qfloor (s / 60) <? 0)%Z eqn:E'; [|lia].
  eexists. reflexivity.
Qed.

Lemma parseSecondsToTime_negative_witness :
  -5 < 0 /\
  exists rest, parseSecondsToTime (Fin (-5)) = String.append "0-"%string rest.
Proof.
  split; [reflexivity|]. apply parseSecondsToTime_negative. reflexivity.
Defined.

Close Scope Q_scope.

End TimeFormatFacts.

(* ------------------------------------------------------------------------- *)
(** ** Seek preview *)

Module SeekPreviewFacts.

Import Controller TimeFormat TimeFormatFacts.
Open Scope Q_scope.

Lemma fraction_bounds (x w : Q) : 0 < w -> 0 <= x <= w -> 0 <= x / w <= 1.
Proof.
  intros Hw [H0 H1]. split.
  - apply Qle_shift_div_l; [exact Hw|]. rewrite Qmult_0_l. exact H0.
  - apply Qle_shift_div_r; [exact Hw|]. rewrite Qmult_1_l. exact H1.
Qed.

Lemma clamp_id (f : Q) : 0 <= f <= 1 -> Qmax 0 (Qmin 1 f) == f.
Proof.
  intros [H0 H1].
  assert (Hm : Qmin 1 f == f) by (apply Q.min_r; exact H1).
  rewrite Q.max_r; [exact Hm|]. rewrite Hm. exact H0.
Qed.

(** C5: [seekProgress] fires on the progress bar itself (the played and
    buffered bars and the seeker do not take pointer events), so its
    [offsetX] lies in [[0, clientWidth]] and the fraction needs no clamping:
    it is the clamped fraction of the specification.  The time it shows is
    [Math.floor] of fraction times duration, a NaN duration read as 0; as
    [parseSecondsToTime] only shows whole seconds, the label is the one of
    fraction times duration.  With a 200-pixel track, pointer 50 and
    duration 120 the previewed time is 30. *)
Theorem seekProgress_matches_preview (pointerX trackWidth : Q) (dur : num) :
  0 < trackWidth -> 0 <= pointerX <= trackWidth ->
  (forall d, dur = Fin d -> 0 <= d) ->
  match fst (seekProgress pointerX trackWidth dur),
        fst (seekPreview_spec pointerX trackWidth dur) with
  | Fin a, Fin b => a == b
  | _, _ => False
  end /\
  parseSecondsToTime (snd (seekProgress pointerX trackWidth dur)) =
    parseSecondsToTime (snd (seekPreview_spec pointerX trackWidth dur)) /\
  snd (seekProgress 50 200 (Fin 120)) = Fin 30.
Proof.
  intros Hw Hx Hd.
  pose proof (fraction_bounds _ _ Hw Hx) as Hf.
  pose proof (clamp_id _ Hf) as Hc.
  assert (Ew : Qeq_bool trackWidth 0 = false).
  { destruct (Qeq_bool trackWidth 0) eqn:E; [|reflexivity].
    apply Qeq_bool_iff in E. rewrite E in Hw. discriminate. }
  set (d0 := match dur with Fin d => d | NaN => 0 end).
  assert (Hd0 : 0 <= d0).
  { unfold d0. destruct dur as [d|]; [apply (Hd d); reflexivity | apply Qle_refl]. }
  assert (Ecode : seekProgress pointerX trackWidth dur =
                  (Fin (pointerX / trackWidth),
                   Fin (inject_Z (Qfloor (pointerX / trackWidth * d0))))).
  { unfold seekProgress, num_div. rewrite Ew. unfold d0.
    destruct dur; reflexivity. }
  rewrite Ecode. unfold seekPreview_spec. fold d0. cbn [fst snd].
  split; [symmetry; exact Hc|].
  split; [|reflexivity].
  assert (Ht : 0 <= pointerX / trackWidth * d0)
    by (apply Qmult_le_0_compat; [apply Hf | exact Hd0]).
  assert (Ht' : 0 <= Qmax 0 (Qmin 1 (pointerX / trackWidth)) * d0)
    by (rewrite Hc; exact Ht).
  assert (Hz : 0 <= inject_Z (Qfloor (pointerX / trackWidth * d0))).
  { change 0 with (inject_Z 0). rewrite <- Zle_Qle.
    rewrite <- (Qfloor_Z 0). apply Qfloor_resp_le. exact Ht. }
  rewrite (parse_nonneg _ Hz), (parse_nonneg _ Ht'), Qfloor_Z.
  rewrite Hc. reflexivity.
Qed.

Lemma seekProgress_matches_preview_witness :
  0 < 200 /\ 0 <= 50 <= 200 /\ (forall d, Fin 120 = Fin d -> 0 <= d) /\
  match fst (seekProgress 50 200 (Fin 120)), fst (seekPreview_spec 50 200 (Fin 120)) with
  | Fin a, Fin b => a == b
  | _, _ => False
  end /\
  parseSecondsToTime (snd (seekProgress 50 200 (Fin 120))) =
    parseSecondsToTime (snd (seekPreview_spec 50 200 (Fin 120))) /\
  snd (seekProgress 50 200 (Fin 120)) = Fin 30.
Proof.
  assert (Hd : forall d, Fin 120 = Fin d -> 0 <= d).
  { intros d H. injection H as <-. discriminate. }
  split; [reflexivity|]. split; [split; discriminate|]. split; [exact Hd|].
  apply seekProgress_matches_preview; [reflexivity | split; discriminate | exact Hd].
Defined.

Close Scope Q_scope.

End SeekPreviewFacts.

(* ------------------------------------------------------------------------- *)
(** ** Projection, spectrum and particle shape *)

Module ShapeFacts.

Import Geometry Particles Shapes GeometryFacts.
Open Scope R_scope.

Lemma circle_chord (r cA sA cB sB : R) :
  sA * sA + cA * cA = 1 -> sB * sB + cB * cB = 1 ->
  (r * cA - r * cB) ^ 2 + (r * sA - r * sB) ^ 2 = 2 * r ^ 2 * (1 - (cA * cB + sA * sB)).
Proof.
  intros HA HB.
  replace ((r * cA - r * cB) ^ 2 + (r * sA - r * sB) ^ 2)
    with (r ^ 2 * (sA * sA + cA * cA) + r ^ 2 * (sB * sB + cB * cB)
          - 2 * r ^ 2 * (cA * cB + sA * sB)) by ring.
  rewrite HA, HB. ring.
Qed.

Lemma sin_cos_one (t : R) : sin t * sin t + cos t * cos t = 1.
Proof. pose proof (sin2_cos2 t) as H. unfold Rsqr in H. exact H. Qed.

(** Two points at radius [r] around the same centre, at angles [a] and [b]
    in degrees: their squared distance is [2 r^2 (1 - cos (a - b))]. *)
Lemma dist2_polar (r a b cx cy : R) :
  dist2 (convertPolarToCartesian r a cx cy) (convertPolarToCartesian r b cx cy) =
  2 * r ^ 2 * (1 - cos ((a - b) * (PI / 180))).
Proof.
  unfold dist2, convertPolarToCartesian; cbn [x y].
  set (A := (a - 90) * (PI / 180)). set (B := (b - 90) * (PI / 180)).
  replace ((a - b) * (PI / 180)) with (A - B) by (unfold A, B, Rdiv; ring).
  rewrite cos_minus.
  replace (r * cos A + cx - (r * cos B + cx)) with (r * cos A - r * cos B) by ring.
  replace (r * sin A + cy - (r * sin B + cy)) with (r * sin A - r * sin B) by ring.
  apply circle_chord; apply sin_cos_one.
Qed.

Lemma polar_center_dist2 (r a : R) (c : point) :
  dist2 (convertPolarToCartesian r a (x c) (y c)) c = r ^ 2.
Proof.
  unfold dist2, convertPolarToCartesian; cbn [x y].
  set (A := (a - 90) * (PI / 180)).
  replace (r * cos A + x c - x c) with (r * cos A) by ring.
  replace (r * sin A + y c - y c) with (r * sin A) by ring.
  pose proof (sin_cos_one A) as H.
  replace ((r * cos A) ^ 2 + (r * sin A) ^ 2)
    with (r ^ 2 * (sin A * sin A + cos A * cos A)) by ring.
  rewrite H. ring.
Qed.

(** X17: [convertPolarToCartesian] puts its point at distance [radius] from
    the centre it is given, whatever the angle. *)
Theorem polar_point_on_circle (r a : R) (c : point) :
  dist2 (convertPolarToCartesian r a (x c) (y c)) c = r ^ 2.
Proof. apply polar_center_dist2. Qed.

(** X18: angles are measured clockwise on the screen from the top: angle 0
    is straight above the centre, angle 90 straight to its right. *)
Theorem polar_zero_is_up (r cx cy : R) :
  convertPolarToCartesian r 0 cx cy = mkPoint cx (cy - r) /\
  convertPolarToCartesian r 90 cx cy = mkPoint (cx + r) cy.
Proof.
  unfold convertPolarToCartesian. split.
  - replace ((0 - 90) * (PI / 180)) with (- (PI / 2)) by field.
    rewrite cos_neg, sin_neg, cos_PI2, sin_PI2. f_equal; ring.
  - replace ((90 - 90) * (PI / 180)) with 0 by ring.
    rewrite cos_0, sin_0. f_equal; ring.
Qed.

(** X19: [drawFragment] fills an equilateral triangle: its three vertices
    lie at distance [selfRadius] from the particle's centre and each side
    has squared length [3 selfRadius^2]. *)
Theorem fragment_triangle_equilateral (cv : canvasSize) (p : fragment) :
  let c := project cv (positionRadius p) (positionAngle p) in
  let '(v1, v2, v3) := vertexes cv p in
  dist2 v1 c = selfRadius p ^ 2 /\ dist2 v2 c = selfRadius p ^ 2 /\
  dist2 v3 c = selfRadius p ^ 2 /\
  dist2 v1 v2 = 3 * selfRadius p ^ 2 /\ dist2 v2 v3 = 3 * selfRadius p ^ 2 /\
  dist2 v1 v3 = 3 * selfRadius p ^ 2.
Proof.
  cbn zeta. unfold vertexes.
  set (c := project cv (positionRadius p) (positionAngle p)).
  set (r := selfRadius p). set (a := selfAngle p).
  split; [apply polar_center_dist2|].
  split; [apply polar_center_dist2|].
  split; [apply polar_center_dist2|].
  rewrite !dist2_polar.
  replace ((a - (120 + a)) * (PI / 180)) with (- (2 * (PI / 3))) by (unfold Rdiv; field).
  replace ((120 + a - (240 + a)) * (PI / 180)) with (- (2 * (PI / 3)))
    by (unfold Rdiv; field).
  replace ((a - (240 + a)) * (PI / 180)) with (- (PI / 3 + PI)) by (unfold Rdiv; field).
  rewrite !cos_neg, neg_cos, cos_2PI3, cos_PI3.
  split; [|split]; field.
Qed.

Lemma nth_Forall_le (data : list nat) (i : nat) :
  Forall (fun m => (m <= 255)%nat) data -> (nth i data 0 <= 255)%nat.
Proof.
  intros H. revert i. induction H as [|m l Hm _ IH]; intros [|i]; simpl; auto; lia.
Qed.

(** X20: with magnitudes from a byte array (at most 255), a volume in
    [[0,1]] and a canvas of positive height, the spectrum stroke for bin [i]
    starts on the inner ring ([RADIUS_LIMIT.min] of the height), at angle
    [2 i * 360 / 256] degrees plus the rotation, and ends on the same ray at
    a radius below [RADIUS_LIMIT.max] of the height. *)
Theorem spectrum_stroke_within_ring (cv : canvasSize) (dataArray : list nat)
    (volume angleOffset : R) (i : nat) :
  0 < height cv -> 0 <= volume <= 1 ->
  Forall (fun m => (m <= 255)%nat) dataArray ->
  let angle := 360 / 256 * INR i * 2 + angleOffset in
  exists rho,
    spectrumSegment cv dataArray volume angleOffset i =
      (project cv (height cv * RADIUS_LIMIT_min) angle, project cv rho angle) /\
    height cv * RADIUS_LIMIT_min <= rho < height cv * RADIUS_LIMIT_max.
Proof.
  intros Hh Hv Hd. cbn zeta.
  pose proof (nth_Forall_le dataArray i Hd) as Hm.
  apply le_INR in Hm. pose proof (pos_INR (nth i dataArray 0%nat)) as Hm0.
  set (m := INR (nth i dataArray 0%nat)) in *.
  unfold spectrumSegment, freqMultiplyRate; cbn [rate_angleInDegrees rate_radius].
  rewrite INR_FREQ_BIN_COUNT.
  eexists. split; [reflexivity|].
  unfold RADIUS_LIMIT_min, RADIUS_LIMIT_max.
  set (k := height cv * (3 / 8 - 1 / 5) / 256).
  assert (Hk : 0 < k) by (unfold k; lra).
  assert (H255 : INR 255 = 255) by (simpl; ring).
  rewrite H255 in Hm.
  assert (H1 : 0 <= m * k * (volume * 0.5 + 0.5)).
  { apply Rmult_le_pos; [apply Rmult_le_pos|]; lra. }
  assert (H2 : m * k * (volume * 0.5 + 0.5) <= 255 * k * 1).
  { apply Rmult_le_compat; [apply Rmult_le_pos; lra | lra | | lra].
    apply Rmult_le_compat_r; lra. }
  assert (H3 : 255 * k * 1 + height cv * (1 / 5) < height cv * (3 / 8))
    by (unfold k; lra).
  change (INR (nth i dataArray 0%nat)) with m. clearbody k m. lra.
Qed.

Lemma spectrum_stroke_within_ring_witness :
  0 < height (initCanvasSize 1280) /\ 0 <= 1 / 2 <= 1 /\
  Forall (fun m => (m <= 255)%nat) [255%nat; 0%nat] /\
  exists rho,
    spectrumSegment (initCanvasSize 1280) [255%nat; 0%nat] (1 / 2) 0 0 =
      (project (initCanvasSize 1280) (height (initCanvasSize 1280) * RADIUS_LIMIT_min)
               (360 / 256 * INR 0 * 2 + 0),
       project (initCanvasSize 1280) rho (360 / 256 * INR 0 * 2 + 0)) /\
    height (initCanvasSize 1280) * RADIUS_LIMIT_min <= rho <
      height (initCanvasSize 1280) * RADIUS_LIMIT_max.
Proof.
  assert (Hh : 0 < height (initCanvasSize 1280))
    by (simpl; unfold ASPECT_RATIO; lra).
  split; [exact Hh|]. split; [lra|].
  split; [repeat constructor|].
  apply spectrum_stroke_within_ring; [exact Hh | lra | repeat constructor].
Defined.

Close Scope R_scope.

End ShapeFacts.

(* ------------------------------------------------------------------------- *)
(** ** Particle spawning, stepping and drawing *)

Module ParticleMoreFacts.

Import Geometry Particles.
Open Scope R_scope.

Lemma lerp_bounds (r lo hi : R) :
  0 <= r < 1 -> lo < hi -> lo <= r * (hi - lo) + lo < hi.
Proof.
  intros [H0 H1] Hlh.
  assert (A : 0 <= r * (hi - lo)) by (apply Rmult_le_pos; lra).
  assert (B : r * (hi - lo) < 1 * (hi - lo)) by (apply Rmult_lt_compat_r; lra).
  lra.
Qed.

Lemma sizes_ordered (w : R) :
  0 < w ->
  let sz := initFragmentsSize (initCanvasSize w) in
  0 < minSelfRadius sz < maxSelfRadius sz /\
  maxSelfRadius sz < minPositionRadius sz < maxPositionRadius sz /\
  0 < fs_stepRadius sz.
Proof.
  intros Hw. cbn zeta. unfold initFragmentsSize, initCanvasSize; cbn.
  unfold FRAGMENTS_minRadius, FRAGMENTS_maxRadius, FRAGMENTS_stepRadius,
    RADIUS_LIMIT_min, ASPECT_RATIO.
  repeat split; lra.
Qed.

(** X21: on a canvas of positive width, with draws of [Math.random()] in
    [[0,1)], a particle of [initFragments] has a positive size within
    [[minSelfRadius, maxSelfRadius)], a distance to the centre within
    [[minPositionRadius, maxPositionRadius)] (a non-empty range), angles in
    [[0,360)], an outward speed within [[stepRadius/2, stepRadius)] and a
    spin within [[-1.5, 1.5)] degrees per step. *)
Theorem spawnInit_bounds (w r1 r2 r3 r4 r5 r6 : R) :
  0 < w -> 0 <= r1 < 1 -> 0 <= r2 < 1 -> 0 <= r3 < 1 -> 0 <= r4 < 1 ->
  0 <= r5 < 1 -> 0 <= r6 < 1 ->
  let sz := initFragmentsSize (initCanvasSize w) in
  let p := spawnInit sz r1 r2 r3 r4 r5 r6 in
  0 < minSelfRadius sz /\ minSelfRadius sz <= selfRadius p < maxSelfRadius sz /\
  minPositionRadius sz <= positionRadius p < maxPositionRadius sz /\
  0 <= selfAngle p < 360 /\ 0 <= positionAngle p < 360 /\
  fs_stepRadius sz / 2 <= stepRadius p < fs_stepRadius sz /\
  - FRAGMENTS_stepAngle <= stepAngle p < FRAGMENTS_stepAngle.
Proof.
  intros Hw H1 H2 H3 H4 H5 H6. cbn zeta.
  destruct (sizes_ordered w Hw) as ((Hs0 & Hs1) & (Hp0 & Hp1) & Hst).
  set (sz := initFragmentsSize (initCanvasSize w)) in *.
  unfold spawnInit; cbn [selfRadius positionRadius selfAngle positionAngle
                         stepRadius stepAngle].
  pose proof (lerp_bounds r1 _ _ H1 Hs1) as A.
  pose proof (lerp_bounds r3 _ _ H3 Hp1) as B.
  assert (C : fs_stepRadius sz / 2 <= (r5 * 0.5 + 0.5) * fs_stepRadius sz
              < fs_stepRadius sz).
  { replace ((r5 * 0.5 + 0.5) * fs_stepRadius sz)
      with (r5 * (fs_stepRadius sz - fs_stepRadius sz / 2) + fs_stepRadius sz / 2)
      by (replace 0.5 with (1 / 2) by lra; field).
    apply lerp_bounds; [exact H5 | lra]. }
  unfold FRAGMENTS_stepAngle.
  repeat split; lra.
Qed.

Lemma spawnInit_bounds_witness :
  0 < 1280 /\ 0 <= 1 / 2 < 1 /\
  let sz := initFragmentsSize (initCanvasSize 1280) in
  let p := spawnInit sz (1 / 2) 0 (1 / 2) 0 (1 / 2) (1 / 2) in
  0 < minSelfRadius sz /\ minSelfRadius sz <= selfRadius p < maxSelfRadius sz /\
  minPositionRadius sz <= positionRadius p < maxPositionRadius sz /\
  0 <= selfAngle p < 360 /\ 0 <= positionAngle p < 360 /\
  fs_stepRadius sz / 2 <= stepRadius p < fs_stepRadius sz /\
  - FRAGMENTS_stepAngle <= stepAngle p < FRAGMENTS_stepAngle.
Proof.
  split; [lra|]. split; [lra|].
  apply spawnInit_bounds; lra.
Defined.

(** X22: a particle recycled by [render] starts strictly inside the inner
    ring, at a positive distance from the centre: its [positionRadius] lies
    in [(0, minPositionRadius)]. *)
Theorem spawnRecycle_starts_inside (w r1 r2 r3 r4 r5 : R) :
  0 < w -> 0 <= r1 < 1 ->
  let sz := initFragmentsSize (initCanvasSize w) in
  let p := spawnRecycle sz r1 r2 r3 r4 r5 in
  minSelfRadius sz <= selfRadius p < maxSelfRadius sz /\
  0 < positionRadius p < minPositionRadius sz.
Proof.
  intros Hw H1. cbn zeta.
  destruct (sizes_ordered w Hw) as ((Hs0 & Hs1) & (Hp0 & Hp1) & Hst).
  set (sz := initFragmentsSize (initCanvasSize w)) in *.
  unfold spawnRecycle; cbn [selfRadius positionRadius].
  pose proof (lerp_bounds r1 _ _ H1 Hs1) as A.
  repeat split; lra.
Qed.

Lemma spawnRecycle_starts_inside_witness :
  0 < 1280 /\ 0 <= 1 / 2 < 1 /\
  let sz := initFragmentsSize (initCanvasSize 1280) in
  let p := spawnRecycle sz (1 / 2) 0 0 0 0 in
  minSelfRadius sz <= selfRadius p < maxSelfRadius sz /\
  0 < positionRadius p < minPositionRadius sz.
Proof.
  split; [lra|]. split; [lra|].
  apply spawnRecycle_starts_inside; lra.
Defined.

(** X23: [n] runs of the logical step turn the spectrum by [0.3 n] degrees
    and move every particle in closed form: its own angle by [n stepAngle],
    its distance to the centre by [n stepRadius]; nothing else changes. *)
Theorem ticks_closed_form (n : nat) (angleOffset : R) (arr : list fragment) :
  Nat.iter n tick (angleOffset, arr) =
  (angleOffset + INR n * ANGLE_STEP,
   map (fun p => mkFragment (selfRadius p) (selfAngle p + INR n * stepAngle p)
                            (positionRadius p + INR n * stepRadius p)
                            (positionAngle p) (stepRadius p) (stepAngle p)) arr).
Proof.
  induction n as [|n IH].
  - simpl. f_equal; [ring|]. rewrite <- (map_id arr) at 1. apply map_ext.
    intros [sr sa pr pa st sg]; simpl. f_equal; ring.
  - change (Nat.iter (S n) tick (angleOffset, arr))
      with (tick (Nat.iter n tick (angleOffset, arr))).
    rewrite IH. unfold tick; cbn [fst snd]. f_equal.
    + rewrite S_INR. ring.
    + rewrite map_map. apply map_ext.
      intros [sr sa pr pa st sg]; unfold stepFragment;
        cbn [selfRadius selfAngle positionRadius positionAngle stepRadius stepAngle].
      rewrite S_INR. f_equal; ring.
Qed.

(** X24: a draw pass keeps the number of particles and takes exactly five
    draws of [Math.random()] for each particle it recycles, none for the
    particles it draws. *)
Theorem drawFragments_random_draws (sz : fragmentSize) (cv : canvasSize)
    (rnd : random) (arr : list fragment) (k i : nat) :
  let '(arr', _, k') := drawFragments sz cv rnd k i arr in
  length arr' = length arr /\
  k' = (k + 5 * length (filter (fun p => negb (drawFragment cv p)) arr))%nat.
Proof.
  revert k i. induction arr as [|p rest IH]; intros k i; simpl; [split; lia|].
  destruct (drawFragment cv p) eqn:Ep; simpl.
  - specialize (IH k (S i)).
    destruct (drawFragments sz cv rnd k (S i) rest) as [[rest' log] k'].
    destruct IH as [H1 H2]. simpl. split; lia.
  - specialize (IH (k + 5)%nat (S i)).
    destruct (drawFragments sz cv rnd (k + 5) (S i) rest) as [[rest' log] k'].
    destruct IH as [H1 H2]. simpl. split; lia.
Qed.

Close Scope R_scope.

End ParticleMoreFacts.

(* ------------------------------------------------------------------------- *)
(** ** Palette *)

Module PaletteMoreFacts.

Import Palette.

Lemma at0_pad (n : nat) (p : palette) : at0 (pad n p) = at0 p.
Proof.
  revert p. induction n as [|n IH]; intros p; simpl; [reflexivity|].
  destruct (Nat.ltb (length p) 3); [|reflexivity].
  rewrite IH. destruct p; reflexivity.
Qed.

(** X25: with three colours or more, the background, spectrum and particle
    colours come from the first three entries of the palette in that order;
    the padding loop does not run and the other entries are not read. *)
Theorem getCoverColor_first_three
    (rgbToHsl : rgb -> Q * Q * Q) (hslToRgb : Q -> Q -> Q -> rgb)
    (a b c : rgb) (rest : palette) :
  ensure3 (Some a :: Some b :: Some c :: rest) = Some a :: Some b :: Some c :: rest /\
  getCoverColor rgbToHsl hslToRgb (Some a :: Some b :: Some c :: rest) =
    Some (mkColors (Rgb (changeColor rgbToHsl hslToRgb a true))
                   (Rgb (changeColor rgbToHsl hslToRgb b false))
                   (Rgba (changeColor rgbToHsl hslToRgb c false) (4 # 10))).
Proof. split; reflexivity. Qed.

(** X26: with two colours, the padding repeats the first one: the particles
    take the first colour lightened, the spectrum the second. *)
Theorem getCoverColor_two_colors
    (rgbToHsl : rgb -> Q * Q * Q) (hslToRgb : Q -> Q -> Q -> rgb) (a b : rgb) :
  ensure3 [Some a; Some b] = [Some a; Some b; Some a] /\
  getCoverColor rgbToHsl hslToRgb [Some a; Some b] =
    Some (mkColors (Rgb (changeColor rgbToHsl hslToRgb a true))
                   (Rgb (changeColor rgbToHsl hslToRgb b false))
                   (Rgba (changeColor rgbToHsl hslToRgb a false) (4 # 10))).
Proof. split; reflexivity. Qed.

(** X27: when the palette is empty or its first entry is [undefined], the
    padding copies [undefined] and the darkened background cannot be
    computed: [getCoverColor] fails. *)
Theorem getCoverColor_undefined_first
    (rgbToHsl : rgb -> Q * Q * Q) (hslToRgb : Q -> Q -> Q -> rgb) (p : palette) :
  at0 p = None -> getCoverColor rgbToHsl hslToRgb p = None.
Proof.
  intros H. unfold getCoverColor, changeAt at 1.
  assert (E : nth_error (ensure3 p) 0 = Some None \/ nth_error (ensure3 p) 0 = None).
  { pose proof (at0_pad 3 p) as A. unfold ensure3.
    destruct (pad 3 p) as [|c q]; [right; reflexivity|].
    left. simpl in A |- *. rewrite A, H. reflexivity. }
  destruct E as [E|E]; rewrite E; reflexivity.
Qed.

Lemma getCoverColor_undefined_first_witness :
  at0 [] = None /\
  getCoverColor (fun _ => (0, 0, 0)%Q) (fun _ _ _ => (0, 0, 0)%Z) [] = None.
Proof.
  split; [reflexivity|]. apply getCoverColor_undefined_first. reflexivity.
Defined.

End PaletteMoreFacts.
